(** * Secret-Santa draw: the constrained random assignment generator

    A shallow embedding of [shuffle] and [generateAssignments] of the
    back end, and the properties of the draw proved about them.

    The two effects of the code are written out:
    - [Math.random()] reads the next value of a global pseudo-random
      sequence.  The sequence is a tape, the state is a position on it,
      and every function that draws takes the state and returns the next.
    - [Array.prototype.sort] is the engine's, not the program's.  The
      program only hands it a comparator; the engine decides which pairs
      it compares and in which order.  A sort is therefore a strategy tree
      ([Sorting]) whose nodes are comparator calls, and the program
      interprets the calls with its own comparator.  The tree is
      well-founded: the engine's sort is taken to end whatever the
      comparator answers.  With a comparator that is not consistent the
      language leaves the order of the result to the engine; the theorems
      ask of the engine, where they need it, that the result be a
      permutation of the array ([Permuting]).  The runs, and what is said
      of the order the shuffle returns, are on the sort of V8, the engine
      of Node.js ([ArrayTimSort]).

    The [while] loop runs on fuel; [retry_terminates] shows that 1001 units
    are always enough and [generateAssignments_fuel] that more changes
    nothing. *)

From Stdlib Require Import QArith Lqa.
From stdpp Require Import gmap strings list fin_maps.

Local Open Scope string_scope.
Local Open Scope nat_scope.

(** ** Types *)

Record User := {
  id : string;
  name : string;
  excludedUserIds : list string;
  ready : bool
}.

(** The two [Error]s thrown by [generateAssignments]. *)
Inductive Error :=
| NotEnoughUsers          (* "Not enough users" *)
| ImpossibleToGenerate.   (* "Impossible to generate valid assignments" *)

Definition message (e : Error) : string :=
  match e with
  | NotEnoughUsers => "Not enough users"
  | ImpossibleToGenerate => "Impossible to generate valid assignments"
  end.

(** How a call ends: an exception or the returned [Map<string, string>]. *)
Inductive Outcome :=
| Throw (e : Error)
| Return (result : gmap string string).

(** ** The random source *)

(** [Math.random()] yields a double in [0, 1): a dyadic rational.  The
    comparator subtracts 0.5, and a sort only looks at the sign of what it
    gets; on doubles of [0, 1) the sign of the rounded difference is the
    sign of the exact one, so rationals carry all that is observed. *)
Record Random := {
  tape : nat → Q;
  pos : nat
}.

Definition Math_random (g : Random) : Q * Random :=
  (tape g (pos g), {| tape := tape g; pos := S (pos g) |}).

(** ** Sorting strategies *)

(** What an engine's sort does with an array of [T]: it either stops with
    an answer, or calls the comparator on two elements and goes on from
    the number it gets back. *)
Inductive Sorting (T R : Type) : Type :=
| Done (r : R)
| Compare (a b : T) (k : Q → Sorting T R).
Arguments Done {T R} r.
Arguments Compare {T R} a b k.

Fixpoint bind {T A B} (f : A → Sorting T B) (s : Sorting T A) : Sorting T B :=
  match s with
  | Done r => f r
  | Compare a b k => Compare a b (λ order, bind f (k order))
  end.

#[global] Instance Sorting_ret {T} : MRet (Sorting T) := λ _, Done.
#[global] Instance Sorting_bind {T} : MBind (Sorting T) := λ _ _, bind.

(** Running a strategy with a comparator that may use the random source. *)
Fixpoint run_sort {T R} (comparefn : T → T → Random → Q * Random)
    (s : Sorting T R) (g : Random) : R * Random :=
  match s with
  | Done r => (r, g)
  | Compare a b k =>
      let '(order, g) := comparefn a b g in
      run_sort comparefn (k order) g
  end.

(** The answers a strategy can give, over all comparator replies. *)
Inductive Yields {T R} : Sorting T R → R → Prop :=
| Yields_Done r : Yields (Done r) r
| Yields_Compare a b k order r :
    Yields (k order) r → Yields (Compare a b k) r.

(** The engine's [Array.prototype.sort]: its strategy for each array. *)
Class Engine := Array_sort : ∀ T : Type, list T → Sorting T (list T).

(** An engine whose sort only moves the elements around. *)
Class Permuting (E : Engine) :=
  Array_sort_permutes : ∀ T (array result : list T),
    Yields (Array_sort T array) result → result ≡ₚ array.

(** ** Utils *)

Section Utils.

Context {E : Engine}.

(** [[...array].sort(() => Math.random() - 0.5)]: the spread copies the
    array, so the argument is left as it was; the arrow function takes no
    parameter, so the two elements it is called on are dropped. *)
Definition shuffle {T} (array : list T) (g : Random) : list T * Random :=
  run_sort
    (λ _ _ g, let '(r, g) := Math_random g in ((r - (1 # 2))%Q, g))
    (Array_sort T array) g.

(** [!assignedId] for an element read at an index: [undefined] past the
    end of the array, and the empty string, are falsy. *)
Definition falsy (assignedId : option string) : bool :=
  match assignedId with
  | None => true
  | Some s => String.eqb s ""
  end.

Definition includes (l : list string) (x : string) : bool :=
  existsb (String.eqb x) l.

(** The validation loop, from index [i] over the users that are left.
    It returns [valid] and the [i] it stopped at. *)
Fixpoint validate (users : list User) (shuffledIds : list string) (i : nat)
    : bool * nat :=
  match users with
  | [] => (true, i)
  | user :: users =>
      let assignedId := shuffledIds !! i in
      if falsy assignedId
         || String.eqb (default "" assignedId) (id user)
         || includes (excludedUserIds user) (default "" assignedId)
      then (false, i)
      else validate users shuffledIds (S i)
  end.

(** [while (attempts < 1000) { ... }].  The recursion is on [fuel]; [None]
    is a loop that has not finished when the fuel is gone. *)
Fixpoint retry (fuel : nat) (users : list User) (userIds : list string)
    (attempts : nat) (shuffledIds : list string) (g : Random)
    : option (nat * list string * Random) :=
  match fuel with
  | O => None
  | S fuel =>
      if attempts <? 1000 then
        let attempts := S attempts in
        let '(shuffledIds, g) := shuffle userIds g in
        let '(valid, _) := validate users shuffledIds 0 in
        if valid then Some (attempts, shuffledIds, g)
        else retry fuel users userIds attempts shuffledIds g
      else Some (attempts, shuffledIds, g)
  end.

(** The loop that fills [result].  [shuffledIds[i]!] asserts that the
    index is in range; [!!!] reads it, and [fill_in_range] shows that the
    default it has out of range is never met. *)
Fixpoint fill (users : list User) (shuffledIds : list string) (i : nat)
    (result : gmap string string) : gmap string string :=
  match users with
  | [] => result
  | user :: users =>
      let assignedId := shuffledIds !!! i in
      fill users shuffledIds (S i) (<[id user := assignedId]> result)
  end.

Definition generateAssignments (fuel : nat) (users : list User) (g : Random)
    : option (Outcome * Random) :=
  if length users <? 2 then Some (Throw NotEnoughUsers, g)
  else
    let userIds := map id users in
    match retry fuel users userIds 0 [] g with
    | None => None
    | Some (attempts, shuffledIds, g) =>
        if 1000 <=? attempts then Some (Throw ImpossibleToGenerate, g)
        else Some (Return (fill users shuffledIds 0 ∅), g)
    end.

End Utils.

(** ** The engine of Node.js: V8 *)

(** The server imports [randomUUID] from [crypto]: it runs on a Node.js
    whose engine, V8, sorts with the TimSort of [array-sort.tq].  On an
    array of fewer than 64 elements [ComputeMinRunLength] is the length
    of the array: the sort finds the run the array starts with
    ([CountAndMakeRun]), extends it to the whole array by binary insertion
    ([BinaryInsertionSort]) and has nothing to merge.  Longer arrays are
    cut into several runs that V8 merges; the merge is not part of this
    development, and what is stated below of V8 is stated of arrays of
    fewer than 64 elements.

    The comparator of the program returns a number, never [NaN], and the
    identifiers are strings, never [undefined]: the sort calls it as it
    is, on every pair it compares. *)

(** [order < 0]. *)
Definition negative (order : Q) : bool :=
  match (order ?= 0)%Q with
  | Lt => true
  | _ => false
  end.

Section ArrayTimSort.

Context {T : Type}.

(** The [for] loop of [CountAndMakeRun], from [idx] on: [run] holds the
    elements of the run before [previousElement], the nearest first, and
    [rest] is [workArray[idx..high-1]].  The loop breaks at the first
    element that does not carry on a descending run ([order >= 0]) or an
    ascending one ([order < 0]).  It returns the run, last element first,
    and the elements after it. *)
Fixpoint extend_run (isDescending : bool) (previousElement : T)
    (run rest : list T) : Sorting T (list T * list T) :=
  match rest with
  | [] => Done (previousElement :: run, [])
  | currentElement :: rest' =>
      Compare currentElement previousElement (λ order,
        if (if isDescending then negb (negative order) else negative order)
        then Done (previousElement :: run, rest)
        else extend_run isDescending currentElement
               (previousElement :: run) rest')
  end.

(** [CountAndMakeRun(0, length)]: the first call compares
    [workArray[1]] with [workArray[0]] and decides whether the run is
    descending; a descending run is reversed in place.  It returns the
    run as it then stands in the array, and the elements after it. *)
Definition CountAndMakeRun (array : list T) : Sorting T (list T * list T) :=
  match array with
  | elementHigh :: elementLow :: rest =>
      Compare elementLow elementHigh (λ order,
        let isDescending := negative order in
        '(run, rest) ← extend_run isDescending elementLow [elementHigh] rest;
        Done (if isDescending then run else rev run, rest))
  | _ => Done (array, [])
  end.

(** The [while (left < right)] loop of [BinaryInsertionSort], which looks
    for the place of [pivot] in [workArray[0..start-1]], here [sorted].
    Each turn brings [left] and [right] closer, so the loop makes at most
    [right - left] turns; [n] counts them down
    ([insertion_point_turns]). *)
Fixpoint insertion_point (n : nat) (pivot : T) (sorted : list T)
    (left right : nat) : Sorting T nat :=
  match n with
  | O => Done left
  | S n =>
      if left <? right then
        let mid := left + Nat.shiftr (right - left) 1 in
        match sorted !! mid with
        | Some element =>
            Compare pivot element (λ order,
              if negative order
              then insertion_point n pivot sorted left mid
              else insertion_point n pivot sorted (mid + 1) right)
        | None => Done left
        end
      else Done left
  end.

(** [BinaryInsertionSort(0, start, length)]: [sorted] is
    [workArray[0..start-1]] and [rest] is [workArray[start..length-1]].
    The elements from [left] on slide one slot to the right and the pivot
    takes the slot at [left]. *)
Fixpoint BinaryInsertionSort (sorted rest : list T) : Sorting T (list T) :=
  match rest with
  | [] => Done sorted
  | pivot :: rest =>
      left ← insertion_point (length sorted) pivot sorted 0 (length sorted);
      BinaryInsertionSort (take left sorted ++ pivot :: drop left sorted) rest
  end.

(** [Array.prototype.sort] returns an array of fewer than two elements
    as it is, without a call of the comparator. *)
Definition ArrayTimSort (array : list T) : Sorting T (list T) :=
  if length array <? 2 then Done array
  else '(run, rest) ← CountAndMakeRun array; BinaryInsertionSort run rest.

End ArrayTimSort.

Definition V8 : Engine := λ T, ArrayTimSort (T := T).

(** Tapes for examples: a finite prefix, then a constant. *)
Definition tape_of (prefix : list Q) (then_ : Q) : nat → Q :=
  λ n, nth n prefix then_.

Definition start (t : nat → Q) : Random := {| tape := t; pos := 0 |}.

(** ** Attempts, named *)

Section Attempts.

Context {E : Engine}.
Variable userIds : list string.

(** The random source once [k] shuffles have been made from [g]. *)
Fixpoint source_after (k : nat) (g : Random) : Random :=
  match k with
  | O => g
  | S k => source_after k (snd (shuffle userIds g))
  end.

(** What attempt number [k + 1] shuffles out of [g]. *)
Definition attempt_ids (k : nat) (g : Random) : list string :=
  fst (shuffle userIds (source_after k g)).

End Attempts.

(** Attempt number [k + 1] passes validation. *)
Definition passes {E : Engine} (users : list User) (k : nat) (g : Random)
    : bool :=
  fst (validate users (attempt_ids (map id users) k g) 0).

(** Two sources that will give the same sequence of values. *)
Definition same_draws (g1 g2 : Random) : Prop :=
  ∀ n, tape g1 (pos g1 + n) = tape g2 (pos g2 + n).

(** What the validation loop accepts at one position: the identifier read
    there is defined and not empty, is not the giver's, and is not among
    the giver's exclusions. *)
Definition acceptable (user : User) (assignedId : option string) : Prop :=
  ∃ a, assignedId = Some a ∧ a ≠ "" ∧ a ≠ id user ∧ a ∉ excludedUserIds user.

(** ** Participants for examples *)

(** A user as the join route creates it: it excludes itself. *)
Definition joined (userId name : string) : User :=
  {| id := userId; name := name; excludedUserIds := [userId]; ready := false |}.

(** The exclusion route, on a user that does not exclude [excludedUserId]
    yet: the identifier is pushed at the end. *)
Definition excluding (user : User) (excludedUserId : string) : User :=
  {| id := id user; name := name user;
     excludedUserIds := excludedUserIds user ++ [excludedUserId];
     ready := false |}.

Definition alice : User := joined "a1" "Alice".
Definition bob : User := joined "b2" "Bob".
Definition carol : User := joined "c3" "Carol".

Definition low : Q := 1 # 4.
Definition high : Q := 3 # 4.


(** The comparator calls between two states of the random source: each
    call of [() => Math.random() - 0.5] draws once, and nothing else
    draws. *)
Definition comparator_calls (g g' : Random) : nat := pos g' - pos g.

(** The random source [k] draws later. *)
Definition advance (k : nat) (g : Random) : Random :=
  {| tape := tape g; pos := pos g + k |}.

(** Whether draw number [i] from [g] on is below one half: the
    comparator, [Math.random() - 0.5], is then negative at that call. *)
Definition below_half (g : Random) (i : nat) : bool :=
  negative (tape g (pos g + i) - (1 # 2)).

(** Draws that keep Alice and Bob as they are 999 times, and swap them at
    the thousandth. *)
Definition last_minute : Random :=
  start (λ n, if n <? 999 then high else low).


(** ** Counting outcomes *)

(** All the sequences of [n] values taken from [values]. *)
Fixpoint sequences (values : list Q) (n : nat) : list (list Q) :=
  match n with
  | O => [[]]
  | S n => r ← values; (r ::.) <$> sequences values n
  end.

(** What [shuffle] returns on each of them, in the same order. *)
Definition outcomes {E : Engine} {T} (values : list Q) (n : nat)
    (array : list T) : list (list T) :=
  (λ drawn, fst (shuffle array (start (tape_of drawn low))))
    <$> sequences values n.

Definition occurrences `{EqDecision T} (p : list T) (l : list (list T)) : nat :=
  length (filter (λ r, r = p) l).

(** The six orders of three elements. *)
Definition orders_of_three {T} (a b c : T) : list (list T) :=
  [[a; b; c]; [a; c; b]; [b; a; c]; [b; c; a]; [c; a; b]; [c; b; a]].

(** Uniformity over the sequences of [n] equally likely values: every
    permutation of the array comes out of as many of them. *)
Definition uniform {E : Engine} `{EqDecision T} (values : list Q) (n : nat)
    (array : list T) : Prop :=
  ∀ p q, p ≡ₚ array → q ≡ₚ array →
    occurrences p (outcomes values n array)
    = occurrences q (outcomes values n array).

(** * The routes *)

(** The handlers of the six routes, as functions from the session store
    to the next store and the reply.  What [randomUUID()] returns while a
    request is served is an argument of the handler; the fields of a JSON
    body and of the query string are taken to be strings, or missing. *)

(** ** Maps in insertion order *)

(** [session.users] is iterated ([values()], [forEach]), so the order of
    its keys matters: a [Map] is the list of its entries in insertion
    order. *)
Fixpoint Map_get {V} (m : list (string * V)) (key : string) : option V :=
  match m with
  | [] => None
  | (k, v) :: m => if String.eqb k key then Some v else Map_get m key
  end.

(** [m.set(key, value)]: a key already there keeps its place. *)
Fixpoint Map_set {V} (m : list (string * V)) (key : string) (value : V)
    : list (string * V) :=
  match m with
  | [] => [(key, value)]
  | (k, v) :: m =>
      if String.eqb k key then (key, value) :: m
      else (k, v) :: Map_set m key value
  end.

Definition Map_values {V} (m : list (string * V)) : list V := snd <$> m.

(** An assignment to a field of the object stored under [key]. *)
Fixpoint mutate {V} (m : list (string * V)) (key : string) (f : V → V)
    : list (string * V) :=
  match m with
  | [] => []
  | (k, v) :: m =>
      if String.eqb k key then (k, f v) :: m
      else (k, v) :: mutate m key f
  end.

(** [forEach] with an assignment to a field of each value. *)
Definition Map_forEach {V} (m : list (string * V)) (f : V → V)
    : list (string * V) :=
  prod_map (λ k, k) f <$> m.

(** [l.indexOf(x)]: [None] stands for -1. *)
Fixpoint indexOf (l : list string) (x : string) : option nat :=
  match l with
  | [] => None
  | y :: l => if String.eqb y x then Some 0 else S <$> indexOf l x
  end.

(** The two branches on [index === -1]: [push], or [splice(index, 1)]. *)
Definition toggle (l : list string) (x : string) : list string :=
  match indexOf l x with
  | None => (l ++ [x])%list
  | Some index => delete index l
  end.

(** ** Types of the store *)

Module Session.

Record t := {
  id : string;
  users : list (string * User);
  assignments : option (gmap string string)
}.

Definition with_users (session : t) (users' : list (string * User)) : t :=
  {| id := id session; users := users'; assignments := assignments session |}.

Definition with_assignments (session : t) (result : gmap string string) : t :=
  {| id := id session; users := users session; assignments := Some result |}.

End Session.

Definition with_ready (b : bool) (user : User) : User :=
  {| id := id user; name := name user;
     excludedUserIds := excludedUserIds user; ready := b |}.

Definition with_excludedUserIds (l : list string) (user : User) : User :=
  {| id := id user; name := name user; excludedUserIds := l;
     ready := ready user |}.

(** ** Requests and replies *)

(** The [x-user-id] header as the handler may find it. *)
Inductive Header :=
| Absent
| Single (value : string)
| Several (values : list string).

Inductive Response :=
| Fail (status : nat) (error : string)          (* res.status(..).json({ error }) *)
| SessionCreated (sessionId userId : string)    (* { sessionId, userId } *)
| UserJoined (userId : string)                  (* { userId } *)
| SessionInfo (id : string) (users : list User) (hasResult : bool)
| ExclusionsChanged (excludedUserIds : list string)
| StatusReady                                   (* { status: "ready" } *)
| StatusOk                                      (* { status: "ok" } *)
| AssignedName (name : option string).          (* { name } *)

(** A handler either answers or lets an exception out. *)
Inductive Reply :=
| Respond (response : Response)
| Uncaught (e : Error).

(** ** Routes *)

(** [POST /sessions]. [uuid1] and [uuid2] are the two [randomUUID()]. *)
Definition post_sessions (name : option string) (uuid1 uuid2 : string)
    (sessions : gmap string Session.t) : gmap string Session.t * Response :=
  if falsy name then (sessions, Fail 400 "Invalid name")
  else
    let sessionId := String.substring 0 6 uuid1 in
    let userId := uuid2 in
    let user :=
      {| id := userId; name := default "" name;
         excludedUserIds := [userId]; ready := false |} in
    let session :=
      {| Session.id := sessionId; Session.users := [(userId, user)];
         Session.assignments := None |} in
    (<[sessionId := session]> sessions, SessionCreated sessionId userId).

(** [POST /sessions/:id/join]. *)
Definition post_sessions_join (id_ : string) (name_ : option string)
    (uuid : string) (sessions : gmap string Session.t)
    : gmap string Session.t * Response :=
  match sessions !! id_ with
  | None => (sessions, Fail 404 "Session not found")
  | Some session =>
      if falsy name_ then (sessions, Fail 400 "Invalid name")
      else if existsb (λ u, String.eqb (name u) (default "" name_))
                (Map_values (Session.users session))
      then (sessions, Fail 400 "Name already used")
      else
        let userId := uuid in
        let user :=
          {| id := userId; name := default "" name_;
             excludedUserIds := [userId]; ready := false |} in
        (<[id_ := Session.with_users session
                    (Map_set (Session.users session) userId user)]> sessions,
         UserJoined userId)
  end.

(** [GET /sessions/:id]. *)
Definition get_sessions (id_ : string) (sessions : gmap string Session.t)
    : Response :=
  match sessions !! id_ with
  | None => Fail 404 "Session not found"
  | Some session =>
      SessionInfo (Session.id session) (Map_values (Session.users session))
        (bool_decide (is_Some (Session.assignments session)))
  end.

(** [POST /sessions/:id/exclusions]. *)
Definition post_sessions_exclusions (id_ userId excludedUserId : string)
    (sessions : gmap string Session.t) : gmap string Session.t * Response :=
  match sessions !! id_ with
  | None => (sessions, Fail 404 "Session not found")
  | Some session =>
      if bool_decide (is_Some (Session.assignments session))
      then (sessions, Fail 400 "Draw already done")
      else
        match Map_get (Session.users session) userId with
        | None => (sessions, Fail 404 "User not found")
        | Some user =>
            if String.eqb userId excludedUserId
            then (sessions, Fail 400 "Cannot exclude yourself")
            else
              let excludedUserIds' :=
                toggle (excludedUserIds user) excludedUserId in
              let users :=
                mutate (Session.users session) userId
                  (with_excludedUserIds excludedUserIds') in
              let users := Map_forEach users (with_ready false) in
              (<[id_ := Session.with_users session users]> sessions,
               ExclusionsChanged excludedUserIds')
        end
  end.

(** [POST /sessions/:id/ready].  The draw may throw; the flag is stored
    by then. *)
Definition post_sessions_ready {E : Engine} (fuel : nat) (id_ : string)
    (header : Header) (sessions : gmap string Session.t) (g : Random)
    : option (gmap string Session.t * Reply * Random) :=
  match sessions !! id_ with
  | None => Some (sessions, Respond (Fail 404 "Session not found"), g)
  | Some session =>
      match header with
      | Single userId =>
          if String.eqb userId ""
          then Some (sessions,
                     Respond (Fail 400 "userId manquant ou invalide"), g)
          else
            match Map_get (Session.users session) userId with
            | None => Some (sessions, Respond (Fail 404 "User not found"), g)
            | Some user =>
                let users :=
                  mutate (Session.users session) userId (with_ready true) in
                let session := Session.with_users session users in
                let allReady := forallb ready (Map_values users) in
                if allReady
                   && negb (bool_decide (is_Some (Session.assignments session)))
                then
                  match generateAssignments fuel (Map_values users) g with
                  | None => None
                  | Some (Throw e, g) =>
                      Some (<[id_ := session]> sessions, Uncaught e, g)
                  | Some (Return result, g) =>
                      Some (<[id_ := Session.with_assignments session result]>
                              sessions,
                            Respond StatusReady, g)
                  end
                else Some (<[id_ := session]> sessions, Respond StatusReady, g)
            end
      | _ => Some (sessions,
                   Respond (Fail 400 "userId manquant ou invalide"), g)
      end
  end.

(** [GET /sessions/:id/result].  [userId] is [None] when the query gives
    no string. *)
Definition get_sessions_result (id_ : string) (userId : option string)
    (sessions : gmap string Session.t) : Response :=
  match sessions !! id_ ≫= Session.assignments with
  | None => Fail 400 "No result yet"
  | Some assignments_ =>
      let result := userId ≫= (assignments_ !!.) in
      if falsy result then Fail 404 "Result not found"
      else
        let assignedUser :=
          sessions !! id_ ≫= λ session,
            Map_get (Session.users session) (default "" result) in
        AssignedName (name <$> assignedUser)
  end.

(** [GET /]. *)
Definition get_root : Response := StatusOk.

(** ** The server *)

Inductive Request :=
| CreateSession (name : option string)
| JoinSession (id_ : string) (name : option string)
| GetSession (id_ : string)
| ToggleExclusion (id_ userId excludedUserId : string)
| SetReady (id_ : string) (header : Header)
| GetResult (id_ : string) (userId : option string)
| GetRoot.

(** One request served; [uuids] is what [randomUUID()] gives to this
    request, in the order it asks. *)
Definition handle {E : Engine} (fuel : nat) (request : Request)
    (uuids : string * string) (sessions : gmap string Session.t) (g : Random)
    : option (gmap string Session.t * Reply * Random) :=
  match request with
  | CreateSession name =>
      let '(sessions, response) :=
        post_sessions name (fst uuids) (snd uuids) sessions in
      Some (sessions, Respond response, g)
  | JoinSession id_ name =>
      let '(sessions, response) :=
        post_sessions_join id_ name (fst uuids) sessions in
      Some (sessions, Respond response, g)
  | GetSession id_ => Some (sessions, Respond (get_sessions id_ sessions), g)
  | ToggleExclusion id_ userId excludedUserId =>
      let '(sessions, response) :=
        post_sessions_exclusions id_ userId excludedUserId sessions in
      Some (sessions, Respond response, g)
  | SetReady id_ header => post_sessions_ready fuel id_ header sessions g
  | GetResult id_ userId =>
      Some (sessions, Respond (get_sessions_result id_ userId sessions), g)
  | GetRoot => Some (sessions, Respond get_root, g)
  end.

(** The stores the server can be in: it starts with none and serves
    requests one after the other. *)
Inductive reachable {E : Engine} : gmap string Session.t → Prop :=
| reachable_start : reachable ∅
| reachable_handle sessions fuel request uuids g sessions' reply g' :
    reachable sessions →
    handle fuel request uuids sessions g = Some (sessions', reply, g') →
    reachable sessions'.

(** ** What the store keeps true *)

(** The entry of a user under [key]. *)
Definition user_ok (key : string) (user : User) : Prop :=
  id user = key ∧ id user ∈ excludedUserIds user ∧
  NoDup (excludedUserIds user) ∧ name user ≠ "".

Definition users_ok (users : list (string * User)) : Prop :=
  NoDup (fst <$> users) ∧
  Forall (λ entry, user_ok (fst entry) (snd entry)) users ∧
  NoDup (name <$> Map_values users).

(** A result over [users]: every giver in it is a user, and is given
    another user who is not on the giver's list. *)
Definition result_ok (users : list (string * User))
    (result : gmap string string) : Prop :=
  ∀ giver recipient, result !! giver = Some recipient →
    recipient ≠ "" ∧ recipient ≠ giver ∧
    is_Some (Map_get users recipient) ∧
    ∃ user, Map_get users giver = Some user ∧
            recipient ∉ excludedUserIds user.

(** Every session is stored under its [id], with users in order. *)
Definition store_users_ok (sessions : gmap string Session.t) : Prop :=
  ∀ key session, sessions !! key = Some session →
    Session.id session = key ∧ users_ok (Session.users session).

(** Every result in the store is sound for the users of its session. *)
Definition store_results_ok (sessions : gmap string Session.t) : Prop :=
  ∀ key session result,
    sessions !! key = Some session →
    Session.assignments session = Some result →
    result_ok (Session.users session) result.

(** ** A session for examples *)

(** Alice opens session "abcdef", Bob and Carol join, Alice excludes Bob,
    and the three say they are ready; the draw of the third request
    shuffles the identifiers into c3, a1, b2. *)
Definition lobby1 : gmap string Session.t :=
  fst (post_sessions (Some "Alice") "abcdef01-2345" "a1" ∅).
Definition lobby2 : gmap string Session.t :=
  fst (post_sessions_join "abcdef" (Some "Bob") "b2" lobby1).
Definition lobby3 : gmap string Session.t :=
  fst (post_sessions_join "abcdef" (Some "Carol") "c3" lobby2).
Definition lobby4 : gmap string Session.t :=
  fst (post_sessions_exclusions "abcdef" "a1" "b2" lobby3).

Definition lucky : Random := start (tape_of [high; low; low; low] low).

(** The store after a ready request, on V8. *)
Definition after_ready (userId : string) (sessions : gmap string Session.t)
    (g : Random) : gmap string Session.t :=
  match post_sessions_ready (E := V8) 1001 "abcdef"
          (Single userId) sessions g with
  | Some (sessions', _, _) => sessions'
  | None => sessions
  end.

Definition lobby5 : gmap string Session.t := after_ready "a1" lobby4 lucky.
Definition lobby6 : gmap string Session.t := after_ready "b2" lobby5 lucky.
Definition lobby7 : gmap string Session.t := after_ready "c3" lobby6 lucky.

(** Someone joins after the draw. *)
Definition lobby8 : gmap string Session.t :=
  fst (post_sessions_join "abcdef" (Some "Dave") "d4" lobby7).

(** The session of an example store, and the result drawn in [lobby7]. *)
Definition room (sessions : gmap string Session.t) : Session.t :=
  default {| Session.id := ""; Session.users := [];
             Session.assignments := None |}
          (sessions !! "abcdef").

Definition drawn : gmap string string :=
  <["a1" := "c3"]> (<["b2" := "a1"]> (<["c3" := "b2"]> ∅)).

(** A source on which every attempt of the example session fails. *)
Definition unlucky : Random := start (λ _, low).

(** * Properties *)

(** ** Strategies and their runs *)

Lemma run_sort_Yields {T R} comparefn (s : Sorting T R) g :
  Yields s (fst (run_sort comparefn s g)).
Proof.
  revert g. induction s as [r | a b k IH]; intros g; simpl.
  - constructor.
  - destruct (comparefn a b g) as [order g'].
    eapply Yields_Compare, IH.
Qed.

Lemma run_sort_bind {T A B} comparefn (s : Sorting T A) (f : A → Sorting T B) g :
  run_sort comparefn (s ≫= f) g =
  let '(r, g') := run_sort comparefn s g in run_sort comparefn (f r) g'.
Proof.
  revert g. induction s as [r | a b k IH]; intros g; simpl; [done |].
  destruct (comparefn a b g) as [order g']. apply IH.
Qed.

Lemma Yields_Done_inv {T R} (r r' : R) :
  Yields (Done (T := T) r) r' → r' = r.
Proof. by inversion 1. Qed.

Lemma Yields_Compare_inv {T R} (a b : T) (k : Q → Sorting T R) r :
  Yields (Compare a b k) r → ∃ order, Yields (k order) r.
Proof. inversion 1; subst. by eexists. Qed.

Lemma Yields_bind {T A B} (s : Sorting T A) (f : A → Sorting T B) r :
  Yields (s ≫= f) r → ∃ x, Yields s x ∧ Yields (f x) r.
Proof.
  induction s as [x | a b k IH]; simpl; intros H.
  - exists x. split; [constructor | done].
  - apply Yields_Compare_inv in H as [order Hk].
    destruct (IH order Hk) as (x & Hx & Hr).
    exists x. split; [by econstructor | done].
Qed.

(** ** The validation loop *)

Lemma includes_true l x : includes l x = true ↔ x ∈ l.
Proof.
  unfold includes. rewrite existsb_exists. split.
  - intros (y & Hy & Heq). apply String.eqb_eq in Heq. subst.
    by apply list_elem_of_In.
  - intros H. exists x. split; [by apply list_elem_of_In | apply String.eqb_refl].
Qed.

Lemma rejected_iff user assignedId :
  falsy assignedId
  || String.eqb (default "" assignedId) (id user)
  || includes (excludedUserIds user) (default "" assignedId) = false
  ↔ acceptable user assignedId.
Proof.
  unfold acceptable. rewrite !orb_false_iff. split.
  - intros [[Hf He] Hi]. destruct assignedId as [a |]; [| done].
    simpl in *. exists a. split; [done |].
    apply String.eqb_neq in Hf, He.
    split; [done |]. split; [done |].
    intros Hin. apply includes_true in Hin. congruence.
  - intros (a & -> & Hne & Hid & Hex). simpl.
    split; [split |]; try by apply String.eqb_neq.
    destruct (includes (excludedUserIds user) a) eqn:E; [| done].
    by apply includes_true in E.
Qed.

Lemma validate_true users shuffledIds i :
  fst (validate users shuffledIds i) = true ↔
  ∀ j user, users !! j = Some user → acceptable user (shuffledIds !! (i + j)).
Proof.
  revert i. induction users as [| user users IH]; intros i; simpl.
  - split; [intros _ j u Hj; by rewrite lookup_nil in Hj | done].
  - destruct (_ || _ || _) eqn:E.
    + simpl. split; [done |]. intros H.
      specialize (H 0 user eq_refl). rewrite Nat.add_0_r in H.
      apply rejected_iff in H. congruence.
    + apply rejected_iff in E. rewrite IH. split.
      * intros H [| j] u Hj; simpl in Hj.
        -- injection Hj as <-. by rewrite Nat.add_0_r.
        -- rewrite Nat.add_succ_r. by apply H.
      * intros H j u Hj. specialize (H (S j) u Hj).
        by rewrite Nat.add_succ_r in H.
Qed.

Lemma validate_false_at users shuffledIds j user :
  users !! j = Some user → ¬ acceptable user (shuffledIds !! j) →
  fst (validate users shuffledIds 0) = false.
Proof.
  intros Hj Hno. destruct (fst (validate _ _ _)) eqn:Hval; [| done].
  destruct Hno. by apply (proj1 (validate_true _ _ _) Hval j user).
Qed.


(** ** The retry loop *)

Section Retry.

Context {E : Engine}.

(** The loop is over once [attempts] has reached 1000, so 1001 units of
    fuel are enough from the start. *)
Lemma retry_terminates fuel users userIds attempts shuffledIds g :
  1000 - attempts < fuel →
  is_Some (retry fuel users userIds attempts shuffledIds g).
Proof.
  revert attempts shuffledIds g.
  induction fuel as [| fuel IH]; intros a sh g Hfuel; [lia |].
  simpl. destruct (a <? 1000) eqn:Ha; [| by eexists].
  apply Nat.ltb_lt in Ha.
  destruct (shuffle userIds g) as [sh1 g1].
  destruct (validate users sh1 0) as [[|] i]; [by eexists |].
  apply IH. lia.
Qed.

Lemma passes_0 users g :
  passes users 0 g = fst (validate users (fst (shuffle (map id users) g)) 0).
Proof. done. Qed.

Lemma passes_S users k g :
  passes users (S k) g = passes users k (snd (shuffle (map id users) g)).
Proof. done. Qed.

Lemma attempt_ids_S userIds k g :
  attempt_ids userIds (S k) g = attempt_ids userIds k (snd (shuffle userIds g)).
Proof. done. Qed.

(** Where the loop stops: at the first attempt that passes, or at the
    attempt that brings the counter to 1000, whichever comes first. *)
Lemma retry_inv fuel users attempts shuffledIds g attempts' shuffledIds' g' :
  retry fuel users (map id users) attempts shuffledIds g
    = Some (attempts', shuffledIds', g') →
  attempts < 1000 →
  ∃ n, attempts' = attempts + S n ∧ attempts' ≤ 1000 ∧
       (∀ m, m < n → passes users m g = false) ∧
       shuffledIds' = attempt_ids (map id users) n g ∧
       g' = source_after (map id users) (S n) g ∧
       (passes users n g = true ∨ attempts' = 1000).
Proof.
  revert attempts shuffledIds g.
  induction fuel as [| fuel IH]; intros a sh g Hrun Ha; [done |].
  simpl in Hrun.
  destruct (a <? 1000) eqn:Hlt; [| apply Nat.ltb_ge in Hlt; lia].
  pose proof (passes_0 users g) as Hp0.
  pose proof (passes_S users) as HpS. specialize (HpS) with (g := g).
  pose proof (attempt_ids_S (map id users)) as HaS.
  specialize HaS with (g := g).
  assert (Ha0 : attempt_ids (map id users) 0 g = fst (shuffle (map id users) g))
    by done.
  assert (Hs1 : ∀ k, source_after (map id users) (S k) g
                   = source_after (map id users) k (snd (shuffle (map id users) g)))
    by done.
  destruct (shuffle (map id users) g) as [sh1 g1] eqn:Hsh. simpl in *.
  destruct (validate users sh1 0) as [valid i] eqn:Hval. simpl in Hp0.
  destruct valid.
  - injection Hrun as <- <- <-. exists 0.
    rewrite Ha0, Hs1. simpl.
    split; [lia |]. split; [lia |]. split; [intros m Hm; lia |].
    split; [done |]. split; [done |]. by left.
  - destruct (decide (S a < 1000)) as [Hnext | Hlast].
    + destruct (IH _ _ _ Hrun Hnext) as (n & -> & Hle & Hfail & -> & -> & Hend).
      exists (S n). rewrite HpS, HaS, Hs1.
      split; [lia |]. split; [lia |].
      split; [| split; [done |]; split; [done |]].
      * intros [| m] Hm; [done |]. rewrite HpS. apply Hfail. lia.
      * destruct Hend as [? | ?]; [by left | right; lia].
    + destruct fuel as [| fuel]; [done |]. simpl in Hrun.
      destruct (S a <? 1000) eqn:Hlt'; [apply Nat.ltb_lt in Hlt'; lia |].
      injection Hrun as <- <- <-. exists 0.
      rewrite Ha0, Hs1. simpl.
      split; [lia |]. split; [lia |]. split; [intros m Hm; lia |].
      split; [done |]. split; [done |]. right. lia.
Qed.

(** The converse: the position of the first passing attempt, or the end
    of the budget, fixes what the loop returns. *)
Lemma retry_run fuel users shuffledIds g n :
  1000 < fuel → S n ≤ 1000 →
  (∀ m, m < n → passes users m g = false) →
  passes users n g = true ∨ S n = 1000 →
  retry fuel users (map id users) 0 shuffledIds g
    = Some (S n, attempt_ids (map id users) n g,
            source_after (map id users) (S n) g).
Proof.
  intros Hfuel Hn Hfail Hend.
  destruct (retry_terminates fuel users (map id users) 0 shuffledIds g)
    as [[[a' sh'] g'] Hrun]; [lia |].
  rewrite Hrun.
  destruct (retry_inv _ _ _ _ _ _ _ _ Hrun) as (k & -> & Hle & Hk & -> & -> & Hkend);
    [lia |].
  assert (k = n) as ->; [| done].
  destruct (Nat.lt_trichotomy k n) as [Hlt | [-> | Hgt]]; [| done |].
  - specialize (Hfail k Hlt). destruct Hkend as [? | ?]; [congruence | lia].
  - specialize (Hk n Hgt). destruct Hend as [? | ?]; [congruence | lia].
Qed.

End Retry.

(** ** The loop that fills the result *)

Lemma fill_lookup_inv users shuffledIds i result k v :
  fill users shuffledIds i result !! k = Some v →
  result !! k = Some v ∨
  ∃ j user, users !! j = Some user ∧ id user = k ∧ v = shuffledIds !!! (i + j).
Proof.
  revert i result. induction users as [| user users IH]; intros i result; simpl.
  - by left.
  - intros H. destruct (IH _ _ H) as [Hres | (j & u & Hj & Hid & Hv)].
    + destruct (decide (id user = k)) as [<- | Hne].
      * rewrite lookup_insert_eq in Hres. injection Hres as <-.
        right. exists 0, user. by rewrite Nat.add_0_r.
      * rewrite lookup_insert_ne in Hres by done. by left.
    + right. exists (S j), u. rewrite Nat.add_succ_r. by simpl.
Qed.

Lemma fill_lookup_other users shuffledIds i result k :
  k ∉ map id users →
  fill users shuffledIds i result !! k = result !! k.
Proof.
  revert i result. induction users as [| user users IH]; intros i result Hk;
    simpl in *; [done |].
  apply not_elem_of_cons in Hk as [Hne Hk].
  rewrite IH by done. by rewrite lookup_insert_ne.
Qed.

Lemma fill_lookup_NoDup users shuffledIds i result j user :
  NoDup (map id users) → users !! j = Some user →
  fill users shuffledIds i result !! id user = Some (shuffledIds !!! (i + j)).
Proof.
  revert i result j. induction users as [| u users IH]; intros i result j Hnd Hj;
    simpl in *; [by rewrite lookup_nil in Hj |].
  apply NoDup_cons in Hnd as [Hnotin Hnd].
  destruct j as [| j]; simpl in Hj.
  - injection Hj as ->. rewrite fill_lookup_other by done.
    by rewrite lookup_insert_eq, Nat.add_0_r.
  - rewrite Nat.add_succ_r, <- Nat.add_succ_l. by apply IH.
Qed.

(** The non-null assertion of [shuffledIds[i]!] holds whenever the pairing
    has passed validation: every index read is in range. *)
Lemma fill_in_range users shuffledIds j user :
  fst (validate users shuffledIds 0) = true → users !! j = Some user →
  shuffledIds !! j = Some (shuffledIds !!! j).
Proof.
  intros Hval Hj.
  destruct (proj1 (validate_true _ _ _) Hval j user Hj) as (a & Ha & _).
  simpl in Ha. rewrite Ha. f_equal. symmetry.
  by apply list_lookup_total_correct.
Qed.

(** ** Shape of the outcome *)

Section Outcome.

Context {E : Engine}.

Lemma generateAssignments_terminates fuel users g :
  1000 < fuel → is_Some (generateAssignments fuel users g).
Proof.
  intros Hfuel. unfold generateAssignments.
  destruct (length users <? 2); [by eexists |].
  destruct (retry_terminates fuel users (map id users) 0 [] g)
    as [[[a sh] g'] ->]; [lia |].
  destruct (1000 <=? a); by eexists.
Qed.

Lemma generateAssignments_NotEnough fuel users g g' :
  generateAssignments fuel users g = Some (Throw NotEnoughUsers, g') →
  length users < 2 ∧ g' = g.
Proof.
  unfold generateAssignments.
  destruct (length users <? 2) eqn:Hlen.
  - apply Nat.ltb_lt in Hlen. by intros [= <-].
  - destruct (retry _ _ _ _ _ _) as [[[a sh] g1] |]; [| done].
    by destruct (1000 <=? a).
Qed.

(** A returned map comes from the first passing attempt, which is one of
    the first 999. *)
Lemma generateAssignments_Return fuel users g result g' :
  generateAssignments fuel users g = Some (Return result, g') →
  2 ≤ length users ∧
  ∃ n, n < 999 ∧ passes users n g = true ∧
       (∀ m, m < n → passes users m g = false) ∧
       result = fill users (attempt_ids (map id users) n g) 0 ∅ ∧
       g' = source_after (map id users) (S n) g.
Proof.
  unfold generateAssignments.
  destruct (length users <? 2) eqn:Hlen; [done |].
  apply Nat.ltb_ge in Hlen.
  destruct (retry _ _ _ _ _ _) as [[[a sh] g1] |] eqn:Hrun; [| done].
  destruct (1000 <=? a) eqn:Ha; [done |]. apply Nat.leb_gt in Ha.
  intros [= <- <-]. split; [done |].
  destruct (retry_inv _ _ _ _ _ _ _ _ Hrun) as (n & -> & _ & Hfail & -> & -> & Hend);
    [lia |].
  exists n. destruct Hend as [Hpass | ?]; [| lia].
  split; [lia |]. done.
Qed.

(** The exception of the retry loop: none of the first 999 attempts
    passed. *)
Lemma generateAssignments_Throw fuel users g g' :
  generateAssignments fuel users g = Some (Throw ImpossibleToGenerate, g') →
  2 ≤ length users ∧ (∀ m, m < 999 → passes users m g = false) ∧
  g' = source_after (map id users) 1000 g.
Proof.
  unfold generateAssignments.
  destruct (length users <? 2) eqn:Hlen; [done |].
  apply Nat.ltb_ge in Hlen.
  destruct (retry _ _ _ _ _ _) as [[[a sh] g1] |] eqn:Hrun; [| done].
  destruct (1000 <=? a) eqn:Ha; [| done]. apply Nat.leb_le in Ha.
  intros [= <-]. split; [done |].
  destruct (retry_inv _ _ _ _ _ _ _ _ Hrun) as (n & -> & Hle & Hfail & _ & -> & _);
    [lia |].
  assert (n = 999) as -> by lia. done.
Qed.

Lemma generateAssignments_first_pass fuel users g n :
  1000 < fuel → 2 ≤ length users → n < 999 →
  (∀ m, m < n → passes users m g = false) → passes users n g = true →
  generateAssignments fuel users g
    = Some (Return (fill users (attempt_ids (map id users) n g) 0 ∅),
            source_after (map id users) (S n) g).
Proof.
  intros Hfuel Hlen Hn Hfail Hpass. unfold generateAssignments.
  apply Nat.ltb_ge in Hlen. rewrite Hlen.
  rewrite (retry_run fuel users [] g n) by (done || lia || by left).
  destruct (1000 <=? S n) eqn:Ha; [apply Nat.leb_le in Ha; lia | done].
Qed.

Lemma generateAssignments_no_pass fuel users g :
  1000 < fuel → 2 ≤ length users →
  (∀ m, m < 999 → passes users m g = false) →
  generateAssignments fuel users g
    = Some (Throw ImpossibleToGenerate, source_after (map id users) 1000 g).
Proof.
  intros Hfuel Hlen Hfail. unfold generateAssignments.
  apply Nat.ltb_ge in Hlen. rewrite Hlen.
  rewrite (retry_run fuel users [] g 999) by (done || lia || by right).
  done.
Qed.

(** With a permuting engine every attempt is a permutation of the ids. *)
Lemma shuffle_Permutation `{!Permuting E} {T} (array : list T) g :
  fst (shuffle array g) ≡ₚ array.
Proof. apply Array_sort_permutes, run_sort_Yields. Qed.

Lemma attempt_ids_Permutation `{!Permuting E} userIds k g :
  attempt_ids userIds k g ≡ₚ userIds.
Proof. apply shuffle_Permutation. Qed.

(** When no permutation of the ids can pass, the call throws. *)
Lemma generateAssignments_infeasible `{!Permuting E} fuel users g :
  1000 < fuel → 2 ≤ length users →
  (∀ shuffledIds, shuffledIds ≡ₚ map id users →
                  fst (validate users shuffledIds 0) = false) →
  generateAssignments fuel users g
    = Some (Throw ImpossibleToGenerate, source_after (map id users) 1000 g).
Proof.
  intros Hfuel Hlen Hnone. apply generateAssignments_no_pass; [done .. |].
  intros m _. apply Hnone, attempt_ids_Permutation.
Qed.

(** Past 1000, the amount of fuel does not matter. *)
Lemma generateAssignments_fuel fuel fuel' users g :
  1000 < fuel → 1000 < fuel' →
  generateAssignments fuel users g = generateAssignments fuel' users g.
Proof.
  intros Hfuel Hfuel'.
  destruct (generateAssignments_terminates fuel users g Hfuel)
    as [[[[] | result] g'] Hgen]; rewrite Hgen; symmetry.
  - apply generateAssignments_NotEnough in Hgen as [Hlen ->].
    unfold generateAssignments. apply Nat.ltb_lt in Hlen. by rewrite Hlen.
  - apply generateAssignments_Throw in Hgen as (Hlen & Hfail & ->).
    by apply generateAssignments_no_pass.
  - apply generateAssignments_Return in Hgen
      as (Hlen & n & Hn & Hpass & Hfail & -> & ->).
    by apply generateAssignments_first_pass.
Qed.

(** The call returns exactly when one of the first 999 attempts passes. *)
Lemma generateAssignments_returns_iff fuel users g :
  1000 < fuel → 2 ≤ length users →
  (∃ result g', generateAssignments fuel users g = Some (Return result, g'))
  ↔ ∃ n, n < 999 ∧ passes users n g = true.
Proof.
  intros Hfuel Hlen. split.
  - intros (result & g' & Hgen).
    apply generateAssignments_Return in Hgen as (_ & n & Hn & Hpass & _).
    by exists n.
  - intros (n & Hn & Hpass).
    destruct (generateAssignments_terminates fuel users g Hfuel)
      as [[[[] | result] g'] Hgen].
    + apply generateAssignments_NotEnough in Hgen as [? _]. lia.
    + apply generateAssignments_Throw in Hgen as (_ & Hfail & _).
      rewrite Hfail in Hpass by done. done.
    + by exists result, g'.
Qed.

End Outcome.

(** ** The returned assignment *)

Section Assignment.

Context {E : Engine}.

(** C3.  In every returned assignment no giver is mapped to itself,
    whatever the exclusion lists hold, and every entry pairs the
    identifier of a participant with a recipient outside that
    participant's exclusion list; the identifiers being distinct, this is
    every participant: each is mapped to a recipient that is neither
    itself nor in its exclusion list. *)
Theorem assignment_no_self_no_excluded fuel users g result g' :
  generateAssignments fuel users g = Some (Return result, g') →
  (∀ giver recipient, result !! giver = Some recipient →
     recipient ≠ giver ∧
     ∃ user, user ∈ users ∧ id user = giver ∧
             recipient ∉ excludedUserIds user) ∧
  (NoDup (map id users) →
   ∀ user, user ∈ users →
     ∃ recipient, result !! id user = Some recipient ∧
                  recipient ≠ id user ∧
                  recipient ∉ excludedUserIds user).
Proof.
  intros Hgen.
  apply generateAssignments_Return in Hgen
    as (_ & n & _ & Hpass & _ & -> & _).
  unfold passes in Hpass. set (sh := attempt_ids _ _ _) in *.
  pose proof (proj1 (validate_true _ _ _) Hpass) as Hok. simpl in Hok.
  split.
  - intros giver recipient Hlook.
    apply fill_lookup_inv in Hlook as [Hempty | (j & user & Hj & <- & ->)].
    + by rewrite lookup_empty in Hempty.
    + destruct (Hok j user Hj) as (a & Ha & _ & Hself & Hexcl). simpl.
      rewrite (list_lookup_total_correct _ _ _ Ha). split; [done |].
      exists user. split; [by eapply list_elem_of_lookup_2 | done].
  - intros Hnd user Hin.
    apply list_elem_of_lookup in Hin as [j Hj].
    destruct (Hok j user Hj) as (a & Ha & _ & Hself & Hexcl).
    exists a. split; [| done].
    rewrite (fill_lookup_NoDup _ _ 0 _ j) by done. simpl.
    by rewrite (list_lookup_total_correct _ _ _ Ha).
Qed.

(** C4.  Over participants with distinct identifiers, a returned
    assignment has exactly the participants as givers, maps them to
    participants, and reaches every participant from exactly one giver. *)
Theorem assignment_is_permutation `{!Permuting E} fuel users g result g' :
  NoDup (map id users) →
  generateAssignments fuel users g = Some (Return result, g') →
  (∀ giver, is_Some (result !! giver) ↔ giver ∈ map id users) ∧
  (∀ giver recipient,
     result !! giver = Some recipient → recipient ∈ map id users) ∧
  (∀ recipient, recipient ∈ map id users →
     ∃ giver, result !! giver = Some recipient ∧
              ∀ giver', result !! giver' = Some recipient → giver' = giver).
Proof.
  intros Hnd Hgen.
  apply generateAssignments_Return in Hgen
    as (_ & n & _ & Hpass & _ & -> & _).
  unfold passes in Hpass.
  pose proof (attempt_ids_Permutation (map id users) n g) as Hperm.
  set (sh := attempt_ids _ _ _) in *.
  pose proof (proj1 (validate_true _ _ _) Hpass) as Hok. simpl in Hok.
  assert (Hread : ∀ j user, users !! j = Some user → sh !! j = Some (sh !!! j)).
  { intros j user Hj. by eapply fill_in_range. }
  assert (Hentry : ∀ giver recipient,
    fill users sh 0 ∅ !! giver = Some recipient →
    ∃ j user, users !! j = Some user ∧ id user = giver ∧ sh !! j = Some recipient).
  { intros giver recipient Hlook.
    apply fill_lookup_inv in Hlook as [Hempty | (j & user & Hj & <- & ->)].
    - by rewrite lookup_empty in Hempty.
    - exists j, user. simpl. eauto. }
  assert (Hnd' : NoDup sh) by by rewrite Hperm.
  split; [| split].
  - intros giver. split.
    + intros [recipient Hlook].
      destruct (Hentry _ _ Hlook) as (j & user & Hj & <- & _).
      apply list_elem_of_fmap. exists user. split; [done |].
      by eapply list_elem_of_lookup_2.
    + intros Hin. apply list_elem_of_fmap in Hin as (user & -> & Hin).
      apply list_elem_of_lookup in Hin as [j Hj].
      rewrite (fill_lookup_NoDup _ _ 0 _ j) by done. by eexists.
  - intros giver recipient Hlook.
    destruct (Hentry _ _ Hlook) as (j & user & _ & _ & Hsh).
    rewrite <- Hperm. by eapply list_elem_of_lookup_2.
  - intros recipient Hin. rewrite <- Hperm in Hin.
    apply list_elem_of_lookup in Hin as [j Hj].
    assert (is_Some (users !! j)) as [user Huser].
    { apply lookup_lt_is_Some. apply lookup_lt_Some in Hj.
      by rewrite (Permutation_length Hperm), length_map in Hj. }
    exists (id user). split.
    + rewrite (fill_lookup_NoDup _ _ 0 _ j) by done. simpl.
      f_equal. by apply list_lookup_total_correct.
    + intros giver' Hlook.
      destruct (Hentry _ _ Hlook) as (j' & user' & Huser' & <- & Hj').
      assert (j' = j) as -> by by eapply NoDup_lookup.
      congruence.
Qed.

End Assignment.

(** ** The two exceptions *)

Section Exceptions.

Context {E : Engine}.

(** C5.  With fewer than two users the call throws "Not enough users"
    at once: it does so on no fuel at all, and the random source comes
    back untouched, so nothing was shuffled. *)
Theorem too_few_users_throws_at_once fuel users g :
  length users < 2 →
  generateAssignments fuel users g = Some (Throw NotEnoughUsers, g).
Proof.
  intros Hlen. unfold generateAssignments.
  apply Nat.ltb_lt in Hlen. by rewrite Hlen.
Qed.

(** C6.  Two users, the first or the second of which excludes the other:
    the call throws "Impossible to generate valid assignments" on every
    random sequence. *)
Theorem two_users_one_excluding_throws `{!Permuting E} fuel A B g :
  1000 < fuel →
  id B ∈ excludedUserIds A →
  fst <$> generateAssignments fuel [A; B] g = Some (Throw ImpossibleToGenerate) ∧
  fst <$> generateAssignments fuel [B; A] g = Some (Throw ImpossibleToGenerate).
Proof.
  intros Hfuel Hexcl.
  assert (Hlen : 2 ≤ length [A; B]) by (simpl; lia).
  split.
  - rewrite generateAssignments_infeasible; [done .. |].
    intros sh Hperm. symmetry in Hperm.
    apply Permutation_length_2_inv in Hperm as [-> | ->];
      apply (validate_false_at _ _ 0 A); try done;
      intros (a & [= <-] & _ & Hself & Hnot); done.
  - rewrite generateAssignments_infeasible; [done .. |].
    intros sh Hperm. symmetry in Hperm.
    apply Permutation_length_2_inv in Hperm as [-> | ->].
    + apply (validate_false_at _ _ 0 B); [done |].
      intros (a & [= <-] & _ & Hself & _); done.
    + apply (validate_false_at _ _ 1 A); [done |].
      intros (a & [= <-] & _ & _ & Hnot); done.
Qed.

(** C10.  If some user of at least two has the empty string as [id], the
    call throws "Impossible to generate valid assignments" on every
    random sequence: the empty identifier is somewhere in every shuffle
    and no pairing passes with it. *)
Theorem empty_id_always_throws `{!Permuting E} fuel users g :
  1000 < fuel →
  2 ≤ length users →
  (∃ user, user ∈ users ∧ id user = "") →
  fst <$> generateAssignments fuel users g = Some (Throw ImpossibleToGenerate).
Proof.
  intros Hfuel Hlen (user & Hin & Hid).
  rewrite generateAssignments_infeasible; [done .. |].
  intros sh Hperm.
  destruct (fst (validate users sh 0)) eqn:Hval; [| done]. exfalso.
  pose proof (proj1 (validate_true _ _ _) Hval) as Hok. simpl in Hok.
  assert (Hsh : "" ∈ sh).
  { rewrite Hperm, <- Hid. apply list_elem_of_fmap. eauto. }
  apply list_elem_of_lookup in Hsh as [j Hj].
  assert (is_Some (users !! j)) as [u Hu].
  { apply lookup_lt_is_Some. apply lookup_lt_Some in Hj.
    by rewrite (Permutation_length Hperm), length_map in Hj. }
  destruct (Hok j u Hu) as (a & Ha & Hne & _). congruence.
Qed.

End Exceptions.

(** ** The random source is the only source of variation *)

Section Determinism.

Context {E : Engine}.

Lemma Math_random_same_draws g1 g2 :
  same_draws g1 g2 →
  fst (Math_random g1) = fst (Math_random g2) ∧
  same_draws (snd (Math_random g1)) (snd (Math_random g2)).
Proof.
  intros Hsame. split.
  - specialize (Hsame 0). by rewrite !Nat.add_0_r in Hsame.
  - intros n. specialize (Hsame (S n)). simpl.
    by rewrite !Nat.add_succ_r in Hsame.
Qed.

Lemma shuffle_same_draws {T} (array : list T) g1 g2 :
  same_draws g1 g2 →
  fst (shuffle array g1) = fst (shuffle array g2) ∧
  same_draws (snd (shuffle array g1)) (snd (shuffle array g2)).
Proof.
  unfold shuffle. generalize (Array_sort T array). intros s.
  revert g1 g2. induction s as [r | a b k IH]; intros g1 g2 Hsame; simpl.
  - done.
  - destruct (Math_random_same_draws _ _ Hsame) as [Hval Hnext].
    simpl in Hval, Hnext. rewrite Hval. by apply IH.
Qed.

Lemma retry_same_draws fuel users userIds attempts shuffledIds g1 g2 :
  same_draws g1 g2 →
  match retry fuel users userIds attempts shuffledIds g1,
        retry fuel users userIds attempts shuffledIds g2 with
  | Some (a1, sh1, g1'), Some (a2, sh2, g2') =>
      a1 = a2 ∧ sh1 = sh2 ∧ same_draws g1' g2'
  | None, None => True
  | _, _ => False
  end.
Proof.
  revert attempts shuffledIds g1 g2.
  induction fuel as [| fuel IH]; intros a sh g1 g2 Hsame; simpl; [done |].
  destruct (a <? 1000); [| done].
  destruct (shuffle_same_draws userIds _ _ Hsame) as [Hids Hnext].
  destruct (shuffle userIds g1) as [sh1 g1'], (shuffle userIds g2) as [sh2 g2'].
  simpl in *. subst sh2.
  destruct (validate users sh1 0) as [[|] i]; [done |].
  by apply IH.
Qed.

(** C8.  Two calls on the same users whose random sources give the same
    sequence of values end the same way: both return the same map or both
    throw the same exception. *)
Theorem same_draws_same_outcome fuel users g1 g2 :
  1000 < fuel →
  same_draws g1 g2 →
  ∃ outcome,
    fst <$> generateAssignments fuel users g1 = Some outcome ∧
    fst <$> generateAssignments fuel users g2 = Some outcome.
Proof.
  intros Hfuel Hsame.
  destruct (generateAssignments_terminates fuel users g1 Hfuel)
    as [[outcome g1'] Hgen1].
  exists outcome. rewrite Hgen1. split; [done |].
  revert Hgen1. unfold generateAssignments.
  destruct (length users <? 2); [by intros [= <- _] |].
  pose proof (retry_same_draws fuel users (map id users) 0 [] _ _ Hsame) as H.
  destruct (retry _ _ _ _ _ g1) as [[[a1 sh1] g1''] |],
           (retry _ _ _ _ _ g2) as [[[a2 sh2] g2''] |]; try done.
  destruct H as (-> & -> & _).
  destruct (1000 <=? a2); by intros [= <- _].
Qed.

End Determinism.

(** ** The budget *)

Section Budget.

Context {E : Engine}.


End Budget.

(** ** Three users *)

Section ThreeUsers.

Context {E : Engine}.

(** C7, as the code has it.  Three users with distinct identifiers and
    no exclusion beyond themselves: the call either throws, when none of
    the first 999 attempts passes, or returns one of the two 3-cycles. *)
Theorem three_users_cycle_or_throw `{!Permuting E} fuel A B C g :
  1000 < fuel →
  NoDup [id A; id B; id C] →
  (∀ user, user ∈ [A; B; C] → ∀ x, x ∈ excludedUserIds user → x = id user) →
  let outcome := fst <$> generateAssignments fuel [A; B; C] g in
  (outcome = Some (Throw ImpossibleToGenerate) ∧
   ∀ m, m < 999 → passes [A; B; C] m g = false) ∨
  outcome = Some (Return {[ id A := id B; id B := id C; id C := id A ]}) ∨
  outcome = Some (Return {[ id A := id C; id C := id B; id B := id A ]}).
Proof.
  intros Hfuel Hnd _ outcome. subst outcome.
  destruct (generateAssignments_terminates fuel [A; B; C] g Hfuel)
    as [[[[] | result] g'] Hgen]; rewrite Hgen; simpl.
  - apply generateAssignments_NotEnough in Hgen as [Hlen _].
    simpl in Hlen. lia.
  - left. split; [done |].
    by apply generateAssignments_Throw in Hgen as (_ & ? & _).
  - right.
    apply generateAssignments_Return in Hgen as (_ & n & _ & Hpass & _ & -> & _).
    unfold passes in Hpass.
    pose proof (attempt_ids_Permutation (map id [A; B; C]) n g) as Hperm.
    set (sh := attempt_ids _ _ _) in *. clearbody sh. simpl in Hperm.
    pose proof (proj1 (validate_true _ _ _) Hpass) as Hok. simpl in Hok.
    pose proof (Permutation_length Hperm) as Hlen.
    destruct sh as [| x [| y [| z [| ? ?]]]]; try done.
    destruct (Hok 0 A eq_refl) as (? & [= <-] & _ & Hx & _).
    destruct (Hok 1 B eq_refl) as (? & [= <-] & _ & Hy & _).
    destruct (Hok 2 C eq_refl) as (? & [= <-] & _ & Hz & _).
    assert (Hnd' : NoDup [x; y; z]) by by rewrite Hperm.
    assert (Hin : ∀ w, w ∈ [x; y; z] → w ∈ [id A; id B; id C]).
    { intros w. by rewrite Hperm. }
    assert (Hx' : x ∈ [id A; id B; id C]) by (apply Hin; repeat constructor).
    assert (Hy' : y ∈ [id A; id B; id C]) by (apply Hin; repeat constructor).
    assert (Hz' : z ∈ [id A; id B; id C]) by (apply Hin; repeat constructor).
    rewrite !elem_of_cons, elem_of_nil in Hx', Hy', Hz'.
    apply NoDup_cons in Hnd' as [Hxy Hnd'].
    apply NoDup_cons in Hnd' as [Hyz _].
    apply NoDup_cons in Hnd as [Hab Hnd].
    apply NoDup_cons in Hnd as [Hbc _].
    apply not_elem_of_cons in Hxy as [Hxy Hxz], Hyz as [Hyz _].
    apply not_elem_of_cons in Hxz as [Hxz _].
    apply not_elem_of_cons in Hab as [Hab Hac], Hbc as [Hbc _].
    apply not_elem_of_cons in Hac as [Hac _].
    assert ((x = id B ∧ y = id C ∧ z = id A) ∨
            (x = id C ∧ y = id A ∧ z = id B)) as [(-> & -> & ->) | (-> & -> & ->)].
    { destruct Hx' as [-> | [-> | [-> | []]]]; [done | |];
        destruct Hy' as [-> | [-> | [-> | []]]]; try done;
        destruct Hz' as [-> | [-> | [-> | []]]]; try done; auto. }
    + left. do 2 f_equal. simpl. rewrite <- (insert_empty (id C)).
      apply map_eq. intros k. rewrite !lookup_insert.
      repeat case_decide; congruence.
    + right. do 2 f_equal. simpl. rewrite <- (insert_empty (id B)).
      apply map_eq. intros k. rewrite !lookup_insert.
      repeat case_decide; congruence.
Qed.

End ThreeUsers.

(** ** No sort of three elements is a uniform shuffle *)

(** The argument is the classical one: [n] draws among [2 ^ w] equally
    likely values make [2 ^ (w n)] equally likely runs, and six does not
    divide a power of two.  It holds for every engine that permutes. *)

Lemma length_bind_const {A B} (f : A → list B) l k :
  (∀ x, length (f x) = k) → length (l ≫= f) = length l * k.
Proof.
  intros Hf. induction l as [| x l IH]; [done |].
  rewrite bind_cons, length_app, Hf, IH. simpl. lia.
Qed.

Lemma length_sequences values n :
  length (sequences values n) = length values ^ n.
Proof.
  induction n as [| n IH]; [done |]. cbn [sequences].
  rewrite (length_bind_const _ _ (length values ^ n)); [simpl; lia |].
  intros r. by rewrite length_fmap.
Qed.

Lemma occurrences_nil `{EqDecision T} (p : list T) : occurrences p [] = 0.
Proof. done. Qed.

Lemma occurrences_cons `{EqDecision T} (p o : list T) l :
  occurrences p (o :: l)
  = (if decide (o = p) then 1 else 0) + occurrences p l.
Proof. unfold occurrences. rewrite filter_cons. by case_decide. Qed.

Lemma sum_list_with_pointwise {A} (f h : A → nat) l :
  (∀ x, f x = h x) → sum_list_with f l = sum_list_with h l.
Proof.
  intros Hfh. induction l as [| x l IH]; simpl; [done | by rewrite Hfh, IH].
Qed.

Lemma sum_list_with_plus {A} (f h : A → nat) l :
  sum_list_with (λ x, f x + h x) l = sum_list_with f l + sum_list_with h l.
Proof. induction l as [| x l IH]; simpl; [done | rewrite IH; lia]. Qed.

Lemma sum_list_with_hit `{EqDecision A} (o : A) ps :
  NoDup ps → o ∈ ps →
  sum_list_with (λ p, if decide (o = p) then 1 else 0) ps = 1.
Proof.
  induction ps as [| p ps IH]; intros Hnd Hin; [by apply elem_of_nil in Hin |].
  apply NoDup_cons in Hnd as [Hp Hnd]. simpl. case_decide as Heq.
  - subst p. f_equal.
    clear IH Hin Hnd. induction ps as [| q ps IH]; simpl; [done |].
    apply not_elem_of_cons in Hp as [Hne Hp].
    rewrite decide_False by done. by apply IH.
  - apply elem_of_cons in Hin as [? | Hin]; [done |]. by rewrite IH.
Qed.

(** Every outcome being one of [ps], the occurrences add up. *)
Lemma occurrences_add_up `{EqDecision T} (ps l : list (list T)) :
  NoDup ps → (∀ o, o ∈ l → o ∈ ps) →
  sum_list_with (λ p, occurrences p l) ps = length l.
Proof.
  intros Hnd. induction l as [| o l IH]; intros Hall.
  - clear. induction ps as [| p ps IHp]; simpl; [done | by rewrite IHp].
  - rewrite (sum_list_with_pointwise _
      (λ p, (if decide (o = p) then 1 else 0) + occurrences p l))
      by (intros p; apply occurrences_cons).
    rewrite sum_list_with_plus, sum_list_with_hit, IH; [done | | done |].
    + intros o' Ho'. apply Hall. by right.
    + apply Hall. by left.
Qed.

Lemma power_of_two_not_multiple_of_three m k : 2 ^ m ≠ 3 * k.
Proof.
  revert k. induction m as [| m IH]; intros k; simpl; [lia |].
  intros Heq. destruct (Nat.Even_or_Odd k) as [[h ->] | [h ->]]; [| lia].
  apply (IH h). lia.
Qed.

Lemma Permutation_three_inv {T} (a b c : T) l :
  l ≡ₚ [a; b; c] → l ∈ orders_of_three a b c.
Proof.
  intros Hperm. unfold orders_of_three.
  apply Permutation_cons_inv_r in Hperm as (k1 & k2 & -> & Hrest).
  pose proof (Permutation_length Hrest) as Hlen.
  rewrite length_app in Hlen. simpl in Hlen.
  apply Permutation_length_2_inv in Hrest.
  destruct k1 as [| x [| y [| ? ?]]]; simpl in *; try lia.
  - destruct Hrest as [-> | ->]; rewrite !elem_of_cons; auto.
  - destruct k2 as [| z [| ? ?]]; simpl in *; try lia.
    destruct Hrest as [[= -> ->] | [= -> ->]]; rewrite !elem_of_cons; auto 10.
  - destruct k2; simpl in *; [| lia].
    destruct Hrest as [[= -> ->] | [= -> ->]]; rewrite !elem_of_cons; auto 10.
Qed.

Lemma orders_of_three_NoDup {T} (a b c : T) :
  NoDup [a; b; c] → NoDup (orders_of_three a b c).
Proof.
  intros Hnd.
  apply NoDup_cons in Hnd as [Hab Hnd]. apply NoDup_cons in Hnd as [Hbc _].
  apply not_elem_of_cons in Hab as [Hab Hac], Hbc as [Hbc _].
  apply not_elem_of_cons in Hac as [Hac _].
  unfold orders_of_three.
  repeat (apply NoDup_cons; split;
          [rewrite !elem_of_cons, elem_of_nil; intros H;
           repeat (destruct H as [[=] | H]; [congruence |]); done |]).
  apply NoDup_singleton.
Qed.

(** Whatever the engine, as long as its sort permutes: over the
    sequences of [n] draws among [2 ^ w] values, the six orders of three
    distinct elements do not come out equally often. *)
Lemma no_sort_shuffles_three_uniformly {E : Engine} `{!Permuting E}
    `{EqDecision T} (a b c : T) values w n :
  length values = 2 ^ w → NoDup [a; b; c] →
  ¬ uniform values n [a; b; c].
Proof.
  intros Hvalues Hnd Huni.
  pose proof (occurrences_add_up (orders_of_three a b c)
                (outcomes values n [a; b; c])
                (orders_of_three_NoDup a b c Hnd)) as Hsum.
  assert (Horder : ∀ p, p ∈ orders_of_three a b c → p ≡ₚ [a; b; c]).
  { intros p Hp. unfold orders_of_three in Hp.
    rewrite !elem_of_cons, elem_of_nil in Hp.
    destruct Hp as [-> | [-> | [-> | [-> | [-> | [-> | []]]]]]].
    - done.
    - apply perm_skip, perm_swap.
    - apply perm_swap.
    - symmetry. apply (Permutation_cons_append [b; c] a).
    - apply (Permutation_cons_append [a; b] c).
    - symmetry. apply (Permutation_rev [a; b; c]). }
  assert (Hin : ∀ o, o ∈ outcomes values n [a; b; c] →
                     o ∈ orders_of_three a b c).
  { intros o Ho. unfold outcomes in Ho.
    apply list_elem_of_fmap in Ho as (drawn & -> & _).
    apply Permutation_three_inv, shuffle_Permutation. }
  specialize (Hsum Hin).
  assert (Hruns : length (outcomes values n [a; b; c]) = 2 ^ (w * n)).
  { unfold outcomes.
    by rewrite length_fmap, length_sequences, Hvalues, <- Nat.pow_mul_r. }
  rewrite Hruns in Hsum.
  set (k := occurrences [a; b; c] (outcomes values n [a; b; c])) in *.
  assert (Hall : ∀ p, p ∈ orders_of_three a b c →
                   occurrences p (outcomes values n [a; b; c]) = k).
  { intros p Hp. apply Huni; [by apply Horder | done]. }
  unfold orders_of_three in Hsum, Hall. simpl in Hsum.
  rewrite !Hall in Hsum by (rewrite !elem_of_cons; auto 10).
  apply (power_of_two_not_multiple_of_three (w * n) (2 * k)). lia.
Qed.

(** ** The thousandth attempt *)

Section LastAttempt.

Context {E : Engine}.

(** C1.  The thousandth attempt is lost.  With at least two users, when
    none of the first 999 attempts passes validation and attempt 1000
    does, the loop stops on its [break] with the counter at 1000 and the
    valid pairing in [shuffledIds], and the call throws "Impossible to
    generate valid assignments" all the same: after the loop the counter
    is 1000 whether the loop stopped on a [break] or not. *)
Theorem thousandth_attempt_passes_yet_throws fuel users g :
  1000 < fuel → 2 ≤ length users →
  (∀ m, m < 999 → passes users m g = false) →
  passes users 999 g = true →
  let shuffledIds := attempt_ids (map id users) 999 g in
  let g' := source_after (map id users) 1000 g in
  retry fuel users (map id users) 0 [] g = Some (1000, shuffledIds, g') ∧
  (∀ i user, users !! i = Some user → acceptable user (shuffledIds !! i)) ∧
  generateAssignments fuel users g = Some (Throw ImpossibleToGenerate, g').
Proof.
  intros Hfuel Hlen Hfail Hpass shuffledIds g'.
  split; [| split].
  - apply retry_run; [done | lia | done | by left].
  - intros i user Hi.
    apply (proj1 (validate_true users shuffledIds 0) Hpass i user Hi).
  - by apply generateAssignments_no_pass.
Qed.

End LastAttempt.

(** * The sort of V8 *)

(** ** It permutes *)

Lemma extend_run_Yields {T} isDescending (previousElement : T)
    run rest run' rest' :
  Yields (extend_run isDescending previousElement run rest) (run', rest') →
  (rev run' ++ rest')%list = (rev run ++ previousElement :: rest)%list.
Proof.
  revert previousElement run.
  induction rest as [| currentElement rest IH]; intros previous run H;
    simpl in H.
  - apply Yields_Done_inv in H as [= -> ->]. simpl. by rewrite app_nil_r.
  - apply Yields_Compare_inv in H as [order Hk].
    destruct (if isDescending then _ else _).
    + apply Yields_Done_inv in Hk as [= -> ->]. simpl.
      by rewrite <- app_assoc.
    + apply IH in Hk. rewrite Hk. simpl. by rewrite <- app_assoc.
Qed.

Lemma CountAndMakeRun_Yields {T} (array run rest : list T) :
  Yields (CountAndMakeRun array) (run, rest) → (run ++ rest)%list ≡ₚ array.
Proof.
  destruct array as [| elementHigh [| elementLow array]]; simpl; intros H.
  - by apply Yields_Done_inv in H as [= -> ->].
  - by apply Yields_Done_inv in H as [= -> ->].
  - apply Yields_Compare_inv in H as [order Hk].
    apply Yields_bind in Hk as ([run0 rest0] & Hrun & Hdone).
    apply Yields_Done_inv in Hdone as [= -> ->].
    apply extend_run_Yields in Hrun. simpl in Hrun. rewrite <- Hrun.
    destruct (negative order); [| done].
    apply Permutation_app_tail, Permutation_rev.
Qed.

Lemma BinaryInsertionSort_Yields {T} (sorted rest result : list T) :
  Yields (BinaryInsertionSort sorted rest) result →
  result ≡ₚ (sorted ++ rest)%list.
Proof.
  revert sorted. induction rest as [| pivot rest IH]; intros sorted H;
    simpl in H.
  - apply Yields_Done_inv in H as ->. by rewrite app_nil_r.
  - apply Yields_bind in H as (left & _ & Hrest).
    apply IH in Hrest. rewrite Hrest.
    trans ((take left sorted ++ drop left sorted) ++ pivot :: rest)%list;
      [| by rewrite take_drop].
    rewrite <- !app_assoc. apply Permutation_app_head. simpl.
    apply Permutation_middle.
Qed.

#[global] Instance V8_Permuting : Permuting V8.
Proof.
  intros T array result H. unfold Array_sort, V8, ArrayTimSort in H.
  destruct (length array <? 2).
  - by apply Yields_Done_inv in H as ->.
  - apply Yields_bind in H as ([run rest] & Hrun & Hsort).
    apply CountAndMakeRun_Yields in Hrun.
    apply BinaryInsertionSort_Yields in Hsort.
    by rewrite Hsort.
Qed.

(** ** The binary search *)

(** [(right - left) >> 1] is [Nat.div2 (right - left)] once computed. *)
Lemma mid_between left right :
  left < right →
  left ≤ left + Nat.div2 (right - left) < right.
Proof.
  intros Hlt. rewrite Nat.div2_div.
  pose proof (Nat.div_mod_eq (right - left) 2) as Hdiv.
  pose proof (Nat.mod_upper_bound (right - left) 2) as Hmod.
  lia.
Qed.

(** The search ends before its counter does: a counter that starts at
    [right - left] or above is never the reason it stops. *)
Lemma insertion_point_turns {T R} n n' (pivot : T) sorted left right
    comparefn (k : nat → Sorting T R) g :
  right - left ≤ n → right - left ≤ n' →
  run_sort comparefn (insertion_point n pivot sorted left right ≫= k) g
  = run_sort comparefn (insertion_point n' pivot sorted left right ≫= k) g.
Proof.
  revert n' left right g.
  induction n as [| n IH]; intros [| n'] left right g Hn Hn'; simpl; try done.
  - destruct (left <? right) eqn:Hlt; [apply Nat.ltb_lt in Hlt; lia | done].
  - destruct (left <? right) eqn:Hlt; [apply Nat.ltb_lt in Hlt; lia | done].
  - destruct (left <? right) eqn:Hlt; [| done]. apply Nat.ltb_lt in Hlt.
    pose proof (mid_between left right Hlt) as Hmid.
    destruct (sorted !! _); [| done]. simpl.
    destruct (comparefn pivot t g) as [order g1].
    destruct (negative order); apply IH; lia.
Qed.

(** The place found is in the range searched. *)
Lemma insertion_point_Yields {T} n (pivot : T) sorted left right place :
  left ≤ right →
  Yields (insertion_point n pivot sorted left right) place →
  left ≤ place ≤ right.
Proof.
  revert left right.
  induction n as [| n IH]; intros left right Hle H; simpl in H.
  - apply Yields_Done_inv in H. lia.
  - destruct (left <? right) eqn:Hlt;
      [| apply Yields_Done_inv in H; lia].
    apply Nat.ltb_lt in Hlt.
    pose proof (mid_between left right Hlt) as Hmid.
    destruct (sorted !! _); [| apply Yields_Done_inv in H; lia].
    apply Yields_Compare_inv in H as [order Hk].
    destruct (negative order); apply IH in Hk; lia.
Qed.

(** ** The draws the comparator makes *)

Lemma negative_below r : negative (r - (1 # 2)) = true ↔ (r < 1 # 2)%Q.
Proof.
  unfold negative.
  destruct (Qcompare_spec (r - (1 # 2)) 0) as [Heq | Hlt | Hgt];
    split; intros H; try done; lra.
Qed.

Lemma negative_not_below r : negative (r - (1 # 2)) = false ↔ (1 # 2 <= r)%Q.
Proof.
  unfold negative.
  destruct (Qcompare_spec (r - (1 # 2)) 0) as [Heq | Hlt | Hgt];
    split; intros H; try done; lra.
Qed.

Lemma advance_0 g : advance 0 g = g.
Proof. destruct g. unfold advance. simpl. by rewrite Nat.add_0_r. Qed.

Lemma advance_advance j k g : advance k (advance j g) = advance (j + k) g.
Proof. unfold advance. simpl. f_equal. lia. Qed.

Lemma comparator_calls_advance k g : comparator_calls g (advance k g) = k.
Proof. unfold comparator_calls, advance. simpl. lia. Qed.

Lemma Math_random_advance g :
  Math_random g = (tape g (pos g), advance 1 g).
Proof. unfold Math_random, advance. do 2 f_equal. lia. Qed.

Lemma below_half_advance j g i :
  below_half (advance j g) i = below_half g (j + i).
Proof. unfold below_half, advance. simpl. by rewrite Nat.add_assoc. Qed.

Lemma below_half_0 g : negative (tape g (pos g) - (1 # 2)) = below_half g 0.
Proof. unfold below_half. by rewrite Nat.add_0_r. Qed.

(** ** Runs that take the whole array *)

Section Comparator.

Context {T : Type}.

Let comparefn : T → T → Random → Q * Random :=
  λ _ _ g, let '(r, g) := Math_random g in ((r - (1 # 2))%Q, g).

(** While the sign of the comparator stays the one the run started with,
    the run goes on: at the end of the array it is the whole array. *)
Lemma extend_run_whole isDescending (previousElement : T) run rest g :
  (∀ i, i < length rest → below_half g i = isDescending) →
  run_sort comparefn (extend_run isDescending previousElement run rest) g
  = ((rev rest ++ previousElement :: run, [])%list, advance (length rest) g).
Proof.
  revert previousElement run g.
  induction rest as [| currentElement rest IH]; intros previous run g Hsigns.
  - simpl. by rewrite advance_0.
  - cbn [extend_run run_sort]. unfold comparefn at 1.
    rewrite Math_random_advance, below_half_0, (Hsigns 0) by (simpl; lia).
    destruct isDescending; simpl negb; cbv iota.
    + rewrite IH.
      * rewrite advance_advance. simpl. by rewrite <- app_assoc.
      * intros i Hi. rewrite below_half_advance. apply Hsigns. simpl. lia.
    + rewrite IH.
      * rewrite advance_advance. simpl. by rewrite <- app_assoc.
      * intros i Hi. rewrite below_half_advance. apply Hsigns. simpl. lia.
Qed.

End Comparator.

(** When the comparator is never negative the array is one ascending
    run, and comes back as it is. *)
Lemma shuffle_unchanged {T} (array : list T) g :
  2 ≤ length array →
  (∀ i, i < length array - 1 → below_half g i = false) →
  shuffle (E := V8) array g = (array, advance (length array - 1) g).
Proof.
  destruct array as [| elementHigh [| elementLow rest]]; simpl;
    intros Hlen Hsigns; [lia | lia |].
  unfold shuffle, Array_sort, V8, ArrayTimSort. cbn [length Nat.ltb Nat.leb].
  cbn [CountAndMakeRun mbind Sorting_bind bind run_sort].
  rewrite Math_random_advance, below_half_0, (Hsigns 0) by lia.
  rewrite !run_sort_bind, extend_run_whole.
  - simpl. by rewrite advance_advance, rev_app_distr, rev_involutive.
  - intros i Hi. rewrite below_half_advance. apply Hsigns. lia.
Qed.

(** When the comparator is always negative the array is one descending
    run, and comes back reversed. *)
Lemma shuffle_reversed {T} (array : list T) g :
  2 ≤ length array →
  (∀ i, i < length array - 1 → below_half g i = true) →
  shuffle (E := V8) array g = (rev array, advance (length array - 1) g).
Proof.
  destruct array as [| elementHigh [| elementLow rest]]; simpl;
    intros Hlen Hsigns; [lia | lia |].
  unfold shuffle, Array_sort, V8, ArrayTimSort. cbn [length Nat.ltb Nat.leb].
  cbn [CountAndMakeRun mbind Sorting_bind bind run_sort].
  rewrite Math_random_advance, below_half_0, (Hsigns 0) by lia.
  rewrite !run_sort_bind, extend_run_whole.
  - simpl. by rewrite advance_advance, <- !app_assoc.
  - intros i Hi. rewrite below_half_advance. apply Hsigns. lia.
Qed.

(** ** Three elements *)

(** What the sort makes of three elements, call by call: two calls find
    the run, and when the run stops at two elements, one or two more put
    the third in its place. *)
Lemma shuffle_three {T} (a b c : T) g :
  shuffle (E := V8) [a; b; c] g =
  match below_half g 0, below_half g 1 with
  | false, false => ([a; b; c], advance 2 g)
  | true, true => ([c; b; a], advance 2 g)
  | false, true =>
      if below_half g 2
      then (if below_half g 3 then [c; a; b] else [a; c; b], advance 4 g)
      else ([a; b; c], advance 3 g)
  | true, false =>
      if below_half g 2
      then (if below_half g 3 then [c; b; a] else [b; c; a], advance 4 g)
      else ([b; a; c], advance 3 g)
  end.
Proof.
  destruct g as [t p]. unfold below_half, advance. simpl.
  rewrite Nat.add_0_r, !(Nat.add_comm p). simpl.
  unfold shuffle, Array_sort, V8, ArrayTimSort. simpl.
  repeat (destruct (negative _); simpl); reflexivity.
Qed.

(** The sixteen ways four draws fall below one half ([lo]) or not
    ([hi]), and what comes out of each. *)
Lemma outcomes_three {T} (a b c : T) lo hi :
  (lo < 1 # 2)%Q → (1 # 2 <= hi)%Q →
  outcomes (E := V8) [lo; hi] 4 [a; b; c]
  = [[c; b; a]; [c; b; a]; [c; b; a]; [c; b; a];
     [c; b; a]; [b; c; a]; [b; a; c]; [b; a; c];
     [c; a; b]; [a; c; b]; [a; b; c]; [a; b; c];
     [a; b; c]; [a; b; c]; [a; b; c]; [a; b; c]].
Proof.
  intros Hlo Hhi.
  apply negative_below in Hlo. apply negative_not_below in Hhi.
  unfold outcomes. cbn [sequences mbind list_bind fmap list_fmap app].
  rewrite !shuffle_three. unfold below_half, start, tape_of.
  cbn [tape pos Nat.add nth]. rewrite Hlo, Hhi. reflexivity.
Qed.

Lemma shuffle_three_frequencies (a b c : string) lo hi :
  NoDup [a; b; c] → (lo < 1 # 2)%Q → (1 # 2 <= hi)%Q →
  (λ p, occurrences p (outcomes (E := V8) [lo; hi] 4 [a; b; c]))
    <$> orders_of_three a b c
  = [6; 1; 2; 1; 1; 5].
Proof.
  intros Hnd Hlo Hhi. rewrite outcomes_three by done.
  apply NoDup_cons in Hnd as [Hab Hnd]. apply NoDup_cons in Hnd as [Hbc _].
  apply not_elem_of_cons in Hab as [Hab Hac], Hbc as [Hbc _].
  apply not_elem_of_cons in Hac as [Hac _].
  unfold orders_of_three. cbn [fmap list_fmap].
  rewrite !occurrences_cons, !occurrences_nil.
  repeat (destruct (decide _) as [? | ?]; [try congruence | try congruence]).
  reflexivity.
Qed.

(** ** The shuffle *)

(** C2, as the code has it.  The shuffle sorts a copy of the array with a
    comparator that draws a fresh random number at every call and looks
    at neither element.  Whatever the engine, as long as its sort
    permutes, and whatever the random sequence, what comes back is a
    permutation of the array.  The permutations are not equally likely.
    On V8 an array of [n] identifiers, [2 ≤ n < 64], comes back as it is
    whenever its first [n - 1] draws are all one half or more, and
    reversed whenever they are all below one half; and over the sixteen
    ways four draws fall below one half or not, three identifiers come
    back in the orders abc, acb, bac, bca, cab and cba from 6, 1, 2, 1, 1
    and 5 of them. *)
Theorem shuffle_permutes_not_uniformly :
  (∀ (E : Engine), Permuting E →
     ∀ (array : list string) g, fst (shuffle array g) ≡ₚ array) ∧
  (∀ (array : list string) g,
     2 ≤ length array < 64 →
     (∀ i, i < length array - 1 → (1 # 2 <= tape g (pos g + i))%Q) →
     shuffle (E := V8) array g = (array, advance (length array - 1) g)) ∧
  (∀ (array : list string) g,
     2 ≤ length array < 64 →
     (∀ i, i < length array - 1 → (tape g (pos g + i) < 1 # 2)%Q) →
     shuffle (E := V8) array g = (rev array, advance (length array - 1) g)) ∧
  (∀ (a b c : string) lo hi,
     NoDup [a; b; c] → (lo < 1 # 2)%Q → (1 # 2 <= hi)%Q →
     (λ p, occurrences p (outcomes (E := V8) [lo; hi] 4 [a; b; c]))
       <$> orders_of_three a b c
     = [6; 1; 2; 1; 1; 5]).
Proof.
  split; [| split; [| split]].
  - intros E HE array g. apply shuffle_Permutation.
  - intros array g [Hlen _] Hdraws. apply shuffle_unchanged; [done |].
    intros i Hi. by apply negative_not_below, Hdraws.
  - intros array g [Hlen _] Hdraws. apply shuffle_reversed; [done |].
    intros i Hi. by apply negative_below, Hdraws.
  - apply shuffle_three_frequencies.
Qed.

(** * Runs on V8 *)

(** ** The shuffle *)

Lemma shuffle_permutes_not_uniformly_run :
  let array := ["a1"; "b2"; "c3"; "d4"] in
  Permuting V8 ∧
  fst (shuffle (E := V8) array lucky) ≡ₚ array ∧
  shuffle (E := V8) array (start (λ _, high))
    = (array, advance 3 (start (λ _, high))) ∧
  shuffle (E := V8) array unlucky
    = (["d4"; "c3"; "b2"; "a1"], advance 3 unlucky) ∧
  (λ p, occurrences p (outcomes (E := V8) [low; high] 4 ["a1"; "b2"; "c3"]))
    <$> orders_of_three "a1" "b2" "c3"
  = [6; 1; 2; 1; 1; 5].
Proof.
  intros array.
  destruct shuffle_permutes_not_uniformly
    as (Hperm & Hsame & Hrev & Hthree).
  split; [exact V8_Permuting |].
  split; [exact (Hperm V8 V8_Permuting array lucky) |].
  split; [| split].
  - apply (Hsame array (start (λ _, high))); [simpl; lia |].
    intros i _. vm_compute. discriminate.
  - apply (Hrev array unlucky); [simpl; lia |].
    intros i _. vm_compute. reflexivity.
  - apply (Hthree "a1" "b2" "c3" low high).
    + apply (bool_decide_unpack _). vm_compute. exact I.
    + vm_compute. reflexivity.
    + vm_compute. discriminate.
Defined.

(** C2 fails as stated.  Over the sixteen equally likely ways the first
    four draws fall below or above one half, the order the array came in
    is returned six times and the order b2, c3, a1 once. *)
Lemma shuffle_not_uniform :
  let results := outcomes (E := V8) [low; high] 4 ["a1"; "b2"; "c3"] in
  occurrences ["a1"; "b2"; "c3"] results = 6 ∧
  occurrences ["b2"; "c3"; "a1"] results = 1 ∧
  ¬ uniform (E := V8) [low; high] 4 ["a1"; "b2"; "c3"].
Proof.
  intros results.
  assert (Hsame : occurrences ["a1"; "b2"; "c3"] results = 6)
    by (vm_compute; reflexivity).
  assert (Hcycle : occurrences ["b2"; "c3"; "a1"] results = 1)
    by (vm_compute; reflexivity).
  split; [done |]. split; [done |]. intros Huni.
  specialize (Huni ["a1"; "b2"; "c3"] ["b2"; "c3"; "a1"]).
  fold results in Huni. rewrite Hsame, Hcycle in Huni.
  assert (H : 6 = 1); [| discriminate H].
  apply Huni; [done |].
  symmetry. apply (Permutation_cons_append ["b2"; "c3"] "a1").
Qed.

(** ** The last attempt of the budget *)

(** Alice and Bob, no exclusion but their own.  V8 makes one call of the
    comparator on two elements and swaps them when it is negative.  The
    first 999 draws are above one half and leave the two identifiers in
    place; draw 1000 is below and swaps them. *)
Lemma thousandth_attempt_passes_yet_throws_run :
  let users := [alice; bob] in
  let shuffledIds := attempt_ids (E := V8) (map id users) 999 last_minute in
  let g' := source_after (E := V8) (map id users) 1000 last_minute in
  1000 < 1001 ∧ 2 ≤ length users ∧
  (∀ m, m < 999 → passes (E := V8) users m last_minute = false) ∧
  passes (E := V8) users 999 last_minute = true ∧
  shuffledIds = ["b2"; "a1"] ∧
  g' = advance 1000 last_minute ∧
  retry (E := V8) 1001 users (map id users) 0 [] last_minute
    = Some (1000, shuffledIds, g') ∧
  (∀ i user, users !! i = Some user → acceptable user (shuffledIds !! i)) ∧
  generateAssignments (E := V8) 1001 users last_minute
    = Some (Throw ImpossibleToGenerate, g').
Proof.
  intros users shuffledIds g'.
  assert (Hfuel : 1000 < 1001) by lia.
  assert (Hlen : 2 ≤ length users) by (simpl; lia).
  assert (Hfail : ∀ m, m < 999 →
            passes (E := V8) users m last_minute = false).
  { assert (∃ g1, generateAssignments (E := V8) 1001 users last_minute
                  = Some (Throw ImpossibleToGenerate, g1)) as [g1 Hgen]
      by (eexists; vm_compute; reflexivity).
    by apply generateAssignments_Throw in Hgen as (_ & ? & _). }
  assert (Hpass : passes (E := V8) users 999 last_minute = true)
    by (vm_compute; reflexivity).
  assert (Hids : shuffledIds = ["b2"; "a1"]) by (vm_compute; reflexivity).
  assert (Hg' : g' = advance 1000 last_minute) by (vm_compute; reflexivity).
  split; [exact Hfuel |]. split; [exact Hlen |]. split; [exact Hfail |].
  split; [exact Hpass |]. split; [exact Hids |]. split; [exact Hg' |].
  exact (thousandth_attempt_passes_yet_throws (E := V8) 1001 users
           last_minute Hfuel Hlen Hfail Hpass).
Defined.

(** ** Three users *)

(** C7 fails as stated.  Alice, Bob and Carol exclude nobody but
    themselves; when every draw is below one half the sort reverses the
    array, every attempt pairs Bob with himself, and the call throws. *)
Lemma three_users_can_throw :
  fst <$> generateAssignments (E := V8) 1001
            [alice; bob; carol] (start (λ _, low))
  = Some (Throw ImpossibleToGenerate).
Proof. vm_compute. reflexivity. Qed.

Lemma three_users_cycle_or_throw_run :
  let g := start (tape_of [low; low; low; high; low; high] low) in
  let outcome :=
    fst <$> generateAssignments (E := V8) 1001 [alice; bob; carol] g in
  1000 < 1001 ∧
  NoDup [id alice; id bob; id carol] ∧
  (∀ user, user ∈ [alice; bob; carol] →
     ∀ x, x ∈ excludedUserIds user → x = id user) ∧
  ((outcome = Some (Throw ImpossibleToGenerate) ∧
    ∀ m, m < 999 → passes (E := V8) [alice; bob; carol] m g = false) ∨
   outcome = Some (Return {[ "a1" := "b2"; "b2" := "c3"; "c3" := "a1" ]}) ∨
   outcome = Some (Return {[ "a1" := "c3"; "c3" := "b2"; "b2" := "a1" ]})).
Proof.
  assert (Hfuel : 1000 < 1001) by lia.
  assert (Hnd : NoDup [id alice; id bob; id carol]).
  { apply (bool_decide_unpack _). vm_compute. exact I. }
  assert (Hexcl : ∀ user, user ∈ [alice; bob; carol] →
                    ∀ x, x ∈ excludedUserIds user → x = id user).
  { intros user Hin x Hx.
    rewrite !elem_of_cons, elem_of_nil in Hin.
    destruct Hin as [-> | [-> | [-> | []]]];
      simpl in Hx; by apply list_elem_of_singleton in Hx. }
  split; [exact Hfuel |]. split; [exact Hnd |]. split; [exact Hexcl |].
  exact (three_users_cycle_or_throw (E := V8)
           1001 alice bob carol _ Hfuel Hnd Hexcl).
Defined.

(** A run that succeeds, for the record: the first attempt reverses the
    array and fails on Bob, the second is a cycle. *)
Example three_users_second_attempt :
  fst <$> generateAssignments (E := V8) 1001
            [alice; bob; carol]
            (start (tape_of [low; low; low; high; low; high] low))
  = Some (Return (<[ "c3" := "a1" ]> (<[ "b2" := "c3" ]> (<[ "a1" := "b2" ]> ∅)))).
Proof. vm_compute. reflexivity. Qed.

(** ** Runs of the property theorems *)

Lemma assignment_no_self_no_excluded_run :
  ∃ result g',
    generateAssignments (E := V8) 1001
      [alice; bob; carol] (start (tape_of [low; high; low; high] low))
      = Some (Return result, g') ∧
    (∀ giver recipient, result !! giver = Some recipient →
       recipient ≠ giver ∧
       ∃ user, user ∈ [alice; bob; carol] ∧ id user = giver ∧
               recipient ∉ excludedUserIds user) ∧
    (NoDup (map id [alice; bob; carol]) →
     ∀ user, user ∈ [alice; bob; carol] →
       ∃ recipient, result !! id user = Some recipient ∧
                    recipient ≠ id user ∧
                    recipient ∉ excludedUserIds user).
Proof.
  eexists _, _.
  match goal with
  | |- ?run ∧ _ => assert (Hrun : run) by (vm_compute; reflexivity)
  end.
  split; [exact Hrun |].
  exact (assignment_no_self_no_excluded (E := V8) _ _ _ _ _ Hrun).
Defined.

Lemma assignment_is_permutation_run :
  ∃ result g',
    NoDup (map id [alice; bob; carol]) ∧
    generateAssignments (E := V8) 1001
      [alice; bob; carol] (start (tape_of [low; high; low; high] low))
      = Some (Return result, g') ∧
    (∀ giver, is_Some (result !! giver) ↔ giver ∈ map id [alice; bob; carol]) ∧
    (∀ giver recipient,
       result !! giver = Some recipient →
       recipient ∈ map id [alice; bob; carol]) ∧
    (∀ recipient, recipient ∈ map id [alice; bob; carol] →
       ∃ giver, result !! giver = Some recipient ∧
                ∀ giver', result !! giver' = Some recipient → giver' = giver).
Proof.
  assert (Hnd : NoDup (map id [alice; bob; carol])).
  { apply (bool_decide_unpack _). vm_compute. exact I. }
  eexists _, _. split; [exact Hnd |].
  match goal with
  | |- ?run ∧ _ => assert (Hrun : run) by (vm_compute; reflexivity)
  end.
  split; [exact Hrun |].
  exact (assignment_is_permutation (E := V8) _ _ _ _ _ Hnd Hrun).
Defined.

Lemma too_few_users_throws_at_once_run :
  length [alice] < 2 ∧
  generateAssignments (E := V8) 0 [alice] (start (λ _, high))
  = Some (Throw NotEnoughUsers, start (λ _, high)).
Proof.
  assert (Hlen : length [alice] < 2) by (simpl; lia).
  split; [exact Hlen |].
  exact (too_few_users_throws_at_once (E := V8) 0 [alice] _ Hlen).
Defined.

Lemma two_users_one_excluding_throws_run :
  let A := excluding alice "b2" in
  let g := start (λ _, high) in
  1000 < 1001 ∧
  id bob ∈ excludedUserIds A ∧
  fst <$> generateAssignments (E := V8) 1001 [A; bob] g
    = Some (Throw ImpossibleToGenerate) ∧
  fst <$> generateAssignments (E := V8) 1001 [bob; A] g
    = Some (Throw ImpossibleToGenerate).
Proof.
  assert (Hfuel : 1000 < 1001) by lia.
  assert (Hexcl : id bob ∈ excludedUserIds (excluding alice "b2")).
  { apply (bool_decide_unpack _). vm_compute. exact I. }
  split; [exact Hfuel |]. split; [exact Hexcl |].
  exact (two_users_one_excluding_throws (E := V8)
           1001 _ bob _ Hfuel Hexcl).
Defined.

Lemma empty_id_always_throws_run :
  let nobody := joined "" "Nobody" in
  1000 < 1001 ∧
  2 ≤ length [alice; nobody; bob] ∧
  (∃ user, user ∈ [alice; nobody; bob] ∧ id user = "") ∧
  fst <$> generateAssignments (E := V8) 1001
            [alice; nobody; bob] (start (λ _, high))
  = Some (Throw ImpossibleToGenerate).
Proof.
  assert (Hfuel : 1000 < 1001) by lia.
  assert (Hlen : 2 ≤ length [alice; joined "" "Nobody"; bob]) by (simpl; lia).
  assert (Hempty : ∃ user, user ∈ [alice; joined "" "Nobody"; bob] ∧ id user = "").
  { exists (joined "" "Nobody"). split; [| reflexivity].
    rewrite !elem_of_cons. auto. }
  split; [exact Hfuel |]. split; [exact Hlen |]. split; [exact Hempty |].
  exact (empty_id_always_throws (E := V8) 1001 _ _ Hfuel Hlen Hempty).
Defined.

Lemma same_draws_same_outcome_run :
  let g1 := start (λ _, high) in
  let g2 := {| tape := λ _, high; pos := 7 |} in
  1000 < 1001 ∧
  same_draws g1 g2 ∧
  ∃ outcome,
    fst <$> generateAssignments (E := V8) 1001
              [alice; bob; carol] g1 = Some outcome ∧
    fst <$> generateAssignments (E := V8) 1001
              [alice; bob; carol] g2 = Some outcome.
Proof.
  assert (Hfuel : 1000 < 1001) by lia.
  assert (Hsame : same_draws (start (λ _, high)) {| tape := λ _, high; pos := 7 |}).
  { intros n. reflexivity. }
  split; [exact Hfuel |]. split; [exact Hsame |].
  exact (same_draws_same_outcome (E := V8) 1001 _ _ _ Hfuel Hsame).
Defined.


(** ** The cost of the attempts *)

(** A sort of four elements can take six calls of the comparator: two
    find a run of two elements, two place the third element and two place
    the fourth. *)
Lemma shuffle_four_six_calls {T} (a b c d : T) g :
  below_half g 0 = false → below_half g 1 = true → below_half g 2 = true →
  comparator_calls g (snd (shuffle (E := V8) [a; b; c; d] g)) = 6.
Proof.
  destruct g as [t p]. unfold below_half, comparator_calls. simpl.
  rewrite Nat.add_0_r, !(Nat.add_comm p). simpl.
  intros H0 H1 H2.
  unfold shuffle, Array_sort, V8, ArrayTimSort. simpl.
  rewrite H0. simpl. rewrite H1. simpl. rewrite H2. simpl.
  repeat (destruct (negative _); simpl); lia.
Qed.


(** * The routes: properties *)

(** ** Maps in insertion order *)

Section MapFacts.

Context {V : Type}.
Implicit Types (m : list (string * V)) (k key : string) (v : V) (f : V → V).

Lemma Map_get_elem_of m k v : Map_get m k = Some v → (k, v) ∈ m.
Proof.
  induction m as [| [k' v'] m IH]; simpl; [done |].
  destruct (String.eqb_spec k' k) as [-> | Hne].
  - intros [= ->]. by left.
  - intros H. right. by apply IH.
Qed.

Lemma Map_get_None m k : Map_get m k = None ↔ k ∉ fst <$> m.
Proof.
  induction m as [| [k' v'] m IH]; simpl.
  - split; [intros _; apply not_elem_of_nil | done].
  - rewrite not_elem_of_cons. destruct (String.eqb_spec k' k) as [-> | Hne].
    + split; [done | by intros [? _]].
    + rewrite IH. split; [by intros ?; split | by intros [_ ?]].
Qed.

Lemma Map_get_is_Some m k : is_Some (Map_get m k) ↔ k ∈ fst <$> m.
Proof.
  pose proof (Map_get_None m k) as Hnone.
  destruct (Map_get m k) as [v |].
  - split; [| by eexists]. intros _.
    destruct (decide (k ∈ fst <$> m)) as [? | Hnot]; [done |].
    by apply Hnone in Hnot.
  - split; [by intros [? ?] |]. intros Hin. by destruct (proj1 Hnone).
Qed.

Lemma Map_get_NoDup m k v :
  NoDup (fst <$> m) → (k, v) ∈ m → Map_get m k = Some v.
Proof.
  induction m as [| [k' v'] m IH]; simpl; intros Hnd Hin.
  - by apply elem_of_nil in Hin.
  - apply NoDup_cons in Hnd as [Hk' Hnd].
    apply elem_of_cons in Hin as [[= <- <-] | Hin].
    + by rewrite String.eqb_refl.
    + destruct (String.eqb_spec k' k) as [-> | Hne]; [| by apply IH].
      destruct Hk'. apply list_elem_of_fmap. by exists (k, v).
Qed.

Lemma Map_set_keys_old m k v :
  k ∈ fst <$> m → fst <$> Map_set m k v = fst <$> m.
Proof.
  induction m as [| [k' v'] m IH]; simpl; intros Hin.
  - by apply elem_of_nil in Hin.
  - destruct (String.eqb_spec k' k) as [-> | Hne]; simpl; [done |].
    apply elem_of_cons in Hin as [-> | Hin]; [done |]. f_equal. by apply IH.
Qed.

Lemma Map_set_keys_new m k v :
  k ∉ fst <$> m → fst <$> Map_set m k v = ((fst <$> m) ++ [k])%list.
Proof.
  induction m as [| [k' v'] m IH]; simpl; intros Hnot; [done |].
  apply not_elem_of_cons in Hnot as [Hne Hnot].
  destruct (String.eqb_spec k' k) as [-> | _]; simpl; [done |].
  f_equal. by apply IH.
Qed.

Lemma Map_set_NoDup m k v : NoDup (fst <$> m) → NoDup (fst <$> Map_set m k v).
Proof.
  intros Hnd. destruct (decide (k ∈ fst <$> m)) as [Hin | Hnot].
  - by rewrite Map_set_keys_old.
  - rewrite Map_set_keys_new by done.
    apply NoDup_app. split; [done |]. split; [| apply NoDup_singleton].
    intros x Hx ->%list_elem_of_singleton. done.
Qed.

Lemma Map_get_set m k v k' :
  Map_get (Map_set m k v) k' = if decide (k = k') then Some v else Map_get m k'.
Proof.
  induction m as [| [k0 v0] m IH]; simpl.
  - destruct (String.eqb_spec k k'); by case_decide.
  - destruct (String.eqb_spec k0 k) as [-> | Hne]; simpl.
    + destruct (String.eqb_spec k k'); by case_decide.
    + destruct (String.eqb_spec k0 k') as [-> | Hne'].
      * by rewrite decide_False.
      * apply IH.
Qed.

Lemma Map_set_Forall (P : string * V → Prop) m k v :
  Forall P m → P (k, v) → Forall P (Map_set m k v).
Proof.
  intros Hm Hkv. induction Hm as [| [k' v'] m Hx Hm IH]; simpl.
  - by constructor.
  - destruct (String.eqb k' k); by constructor.
Qed.

Lemma mutate_keys m k f : fst <$> mutate m k f = fst <$> m.
Proof.
  induction m as [| [k' v'] m IH]; simpl; [done |].
  destruct (String.eqb k' k); simpl; [done |]. f_equal. apply IH.
Qed.

Lemma Map_get_mutate m k f k' :
  Map_get (mutate m k f) k'
  = (if decide (k = k') then f else λ v, v) <$> Map_get m k'.
Proof.
  induction m as [| [k0 v0] m IH]; simpl; [done |].
  destruct (String.eqb_spec k0 k) as [-> | Hne]; simpl.
  - destruct (String.eqb_spec k k') as [-> | Hne'].
    + by rewrite decide_True.
    + rewrite decide_False by done. by destruct (Map_get m k').
  - destruct (String.eqb_spec k0 k') as [-> | Hne'].
    + by rewrite decide_False.
    + apply IH.
Qed.

Lemma mutate_Forall (P : string * V → Prop) m k f :
  Forall P m → (∀ k v, P (k, v) → P (k, f v)) → Forall P (mutate m k f).
Proof.
  intros Hm Hf. induction Hm as [| [k' v'] m Hx Hm IH]; simpl; [done |].
  destruct (String.eqb k' k); constructor; auto.
Qed.

Lemma mutate_values {A} (h : V → A) m k f :
  (∀ v, h (f v) = h v) → h <$> Map_values (mutate m k f) = h <$> Map_values m.
Proof.
  intros Hh. unfold Map_values.
  induction m as [| [k' v'] m IH]; simpl; [done |].
  destruct (String.eqb k' k); simpl; [by rewrite Hh |]. f_equal. apply IH.
Qed.

Lemma Map_forEach_keys m f : fst <$> Map_forEach m f = fst <$> m.
Proof.
  unfold Map_forEach. induction m as [| [k' v'] m IH]; simpl; [done |].
  f_equal. apply IH.
Qed.

Lemma Map_get_forEach m f k : Map_get (Map_forEach m f) k = f <$> Map_get m k.
Proof.
  unfold Map_forEach. induction m as [| [k' v'] m IH]; simpl; [done |].
  by destruct (String.eqb k' k).
Qed.

Lemma Map_forEach_Forall (P : string * V → Prop) m f :
  Forall P m → (∀ k v, P (k, v) → P (k, f v)) → Forall P (Map_forEach m f).
Proof.
  intros Hm Hf. unfold Map_forEach.
  induction Hm as [| [k' v'] m Hx Hm IH]; simpl; constructor; auto.
Qed.

Lemma Map_forEach_values m f : Map_values (Map_forEach m f) = f <$> Map_values m.
Proof.
  unfold Map_forEach, Map_values.
  induction m as [| [k' v'] m IH]; simpl; [done | f_equal; apply IH].
Qed.

End MapFacts.

Lemma Map_set_elem_of {V} (m : list (string * V)) k v entry :
  entry ∈ Map_set m k v → entry ∈ m ∨ entry = (k, v).
Proof.
  induction m as [| [k' v'] m IH]; simpl.
  - intros ->%list_elem_of_singleton. by right.
  - destruct (String.eqb k' k).
    + intros [-> | Hin]%elem_of_cons; [by right | left; by right].
    + intros [-> | Hin]%elem_of_cons; [left; by left |].
      destruct (IH Hin) as [? | ?]; [left; by right | by right].
Qed.

(** ** The array of exclusions *)

Lemma indexOf_None l x : indexOf l x = None ↔ x ∉ l.
Proof.
  induction l as [| y l IH]; simpl.
  - split; [intros _; apply not_elem_of_nil | done].
  - rewrite not_elem_of_cons. destruct (String.eqb_spec y x) as [-> | Hne].
    + split; [done | by intros [? _]].
    + destruct (indexOf l x); simpl.
      * split; [done |]. intros [_ Hnot]. by apply IH in Hnot.
      * split; [| done]. intros _. split; [done | by apply IH].
Qed.

Lemma indexOf_Some l x i : indexOf l x = Some i → l !! i = Some x.
Proof.
  revert i. induction l as [| y l IH]; intros i; simpl; [done |].
  destruct (String.eqb_spec y x) as [-> | Hne].
  - by intros [= <-].
  - destruct (indexOf l x) as [j |]; simpl; [| done].
    intros [= <-]. by apply IH.
Qed.

Lemma elem_of_delete_other (l : list string) i x y :
  l !! i = Some x → y ≠ x → y ∈ l → y ∈ delete i l.
Proof.
  intros Hi Hne Hin.
  rewrite (delete_Permutation l i x Hi) in Hin.
  by apply elem_of_cons in Hin as [-> | ?].
Qed.

Lemma not_elem_of_delete_NoDup (l : list string) i x :
  NoDup l → l !! i = Some x → x ∉ delete i l.
Proof.
  intros Hnd Hi. rewrite (delete_Permutation l i x Hi) in Hnd.
  by apply NoDup_cons in Hnd as [? _].
Qed.

Lemma NoDup_delete (l : list string) i : NoDup l → NoDup (delete i l).
Proof. intros Hnd. by apply (sublist_NoDup _ l), sublist_delete. Qed.

(** ** Users that stay in order *)

Lemma name_used_false (users : list (string * User)) n :
  existsb (λ u, String.eqb (name u) n) (Map_values users) = false
  ↔ n ∉ name <$> Map_values users.
Proof.
  induction (Map_values users) as [| u l IH]; simpl.
  - split; [intros _; apply not_elem_of_nil | done].
  - rewrite orb_false_iff, not_elem_of_cons, IH.
    destruct (String.eqb_spec (name u) n) as [-> | Hne].
    + split; [by intros [? _] | by intros [? _]].
    + split; [intros [_ ?]; by split | intros [_ ?]; by split].
Qed.

Lemma fmap_name_unchanged (f : User → User) (l : list User) :
  (∀ u, name (f u) = name u) → name <$> (f <$> l) = name <$> l.
Proof.
  intros Hname. induction l as [| u l IH]; simpl; [done |].
  rewrite Hname. f_equal. apply IH.
Qed.

Lemma users_ok_mutate users key f :
  users_ok users →
  (∀ k u, user_ok k u → user_ok k (f u)) → (∀ u, name (f u) = name u) →
  users_ok (mutate users key f).
Proof.
  intros (Hkeys & Hall & Hnames) Hf Hname. split; [| split].
  - by rewrite mutate_keys.
  - apply mutate_Forall; [done |]. intros k u. apply Hf.
  - by rewrite (mutate_values name).
Qed.

Lemma users_ok_forEach users f :
  users_ok users →
  (∀ k u, user_ok k u → user_ok k (f u)) → (∀ u, name (f u) = name u) →
  users_ok (Map_forEach users f).
Proof.
  intros (Hkeys & Hall & Hnames) Hf Hname. split; [| split].
  - by rewrite Map_forEach_keys.
  - apply Map_forEach_Forall; [done |]. intros k u. apply Hf.
  - rewrite Map_forEach_values. by rewrite (fmap_name_unchanged f).
Qed.

Lemma mutate_Forall_at {V} (P : string * V → Prop) (m : list (string * V)) key f :
  Forall P m → (∀ v, Map_get m key = Some v → P (key, f v)) →
  Forall P (mutate m key f).
Proof.
  intros Hm. induction Hm as [| [k' v'] m Hx Hm IH]; simpl; intros Hf; [done |].
  destruct (String.eqb_spec k' key) as [-> | Hne]; constructor; auto.
Qed.

Lemma users_ok_mutate_at users key f :
  users_ok users →
  (∀ u, Map_get users key = Some u → user_ok key (f u)) →
  (∀ u, name (f u) = name u) →
  users_ok (mutate users key f).
Proof.
  intros (Hkeys & Hall & Hnames) Hf Hname. split; [| split].
  - by rewrite mutate_keys.
  - by apply mutate_Forall_at.
  - by rewrite (mutate_values name).
Qed.

Lemma users_ok_set users key user :
  users_ok users → user_ok key user → name user ∉ name <$> Map_values users →
  users_ok (Map_set users key user).
Proof.
  intros (Hkeys & Hall & Hnames) Huser Hfresh. split; [| split].
  - by apply Map_set_NoDup.
  - by apply Map_set_Forall.
  - clear Hkeys Hall Huser. unfold Map_values in *.
    induction users as [| [k u] users IH]; simpl in *.
    + apply NoDup_singleton.
    + apply NoDup_cons in Hnames as [Hu Hnames].
      apply not_elem_of_cons in Hfresh as [Hne Hfresh].
      destruct (String.eqb k key); simpl.
      * by apply NoDup_cons.
      * apply NoDup_cons. split; [| by apply IH].
        intros Hin. apply list_elem_of_fmap in Hin as (u' & Hname & Hin).
        apply list_elem_of_fmap in Hin as ([k' u''] & -> & Hin). simpl in *.
        apply Map_set_elem_of in Hin as [Hin | [= -> ->]]; [| done].
        apply Hu. apply list_elem_of_fmap. exists u''. split; [done |].
        apply list_elem_of_fmap. by exists (k', u'').
Qed.

Lemma users_ok_lookup users key user :
  users_ok users → Map_get users key = Some user → user_ok key user.
Proof.
  intros (_ & Hall & _) Hget. apply Map_get_elem_of in Hget.
  by apply (proj1 (Forall_forall _ _) Hall (key, user)).
Qed.

Lemma users_ok_ids users : users_ok users → map id (Map_values users) = fst <$> users.
Proof.
  intros (_ & Hall & _). unfold Map_values.
  induction Hall as [| [k u] users [Hid _] Hall IH]; simpl in *; [done |].
  rewrite Hid. f_equal. apply IH.
Qed.

(** ** What a toggle does to the array *)

Lemma toggle_keeps (l : list string) x y : y ≠ x → y ∈ l → y ∈ toggle l x.
Proof.
  intros Hne Hin. unfold toggle. destruct (indexOf l x) as [i |] eqn:Hi.
  - apply indexOf_Some in Hi. by eapply elem_of_delete_other.
  - apply elem_of_app. by left.
Qed.

Lemma toggle_NoDup (l : list string) x : NoDup l → NoDup (toggle l x).
Proof.
  intros Hnd. unfold toggle. destruct (indexOf l x) as [i |] eqn:Hi.
  - by apply NoDup_delete.
  - apply indexOf_None in Hi. apply NoDup_app. split; [done |].
    split; [| apply NoDup_singleton].
    intros z Hz ->%list_elem_of_singleton. done.
Qed.

(** ** What each route does to the store *)

Lemma falsy_false (o : option string) :
  falsy o = false ↔ ∃ s, o = Some s ∧ s ≠ "".
Proof.
  destruct o as [s |]; simpl.
  - rewrite String.eqb_neq. split; [by exists s | by intros (? & [= <-] & ?)].
  - split; [done | by intros (? & ? & _)].
Qed.

(** The user that [POST /sessions] and the join route make. *)
Lemma post_sessions_inv name uuid1 uuid2 sessions sessions' response :
  post_sessions name uuid1 uuid2 sessions = (sessions', response) →
  (sessions' = sessions ∧ response = Fail 400 "Invalid name" ∧
   falsy name = true) ∨
  (∃ n, name = Some n ∧ n ≠ "" ∧
        response = SessionCreated (String.substring 0 6 uuid1) uuid2 ∧
        sessions' =
          <[String.substring 0 6 uuid1 :=
              {| Session.id := String.substring 0 6 uuid1;
                 Session.users := [(uuid2, joined uuid2 n)];
                 Session.assignments := None |}]> sessions).
Proof.
  unfold post_sessions. destruct (falsy name) eqn:Hname.
  - intros [= <- <-]. by left.
  - apply falsy_false in Hname as (n & -> & Hn).
    intros [= <- <-]. right. by exists n.
Qed.

Lemma post_sessions_join_inv id_ name_ uuid sessions sessions' response :
  post_sessions_join id_ name_ uuid sessions = (sessions', response) →
  (sessions' = sessions ∧ ∃ status error, response = Fail status error) ∨
  (∃ session n,
     sessions !! id_ = Some session ∧ name_ = Some n ∧ n ≠ "" ∧
     (n ∉ name <$> Map_values (Session.users session)) ∧
     response = UserJoined uuid ∧
     sessions' =
       <[id_ := Session.with_users session
                  (Map_set (Session.users session) uuid (joined uuid n))]>
         sessions).
Proof.
  unfold post_sessions_join.
  destruct (sessions !! id_) as [session |]; [| intros [= <- <-]; left; eauto].
  destruct (falsy name_) eqn:Hname; [intros [= <- <-]; left; eauto |].
  apply falsy_false in Hname as (n & -> & Hn). simpl.
  destruct (existsb _ _) eqn:Hused; [intros [= <- <-]; left; eauto |].
  apply name_used_false in Hused.
  intros [= <- <-]. right. by exists session, n.
Qed.

Lemma post_sessions_exclusions_inv id_ userId excludedUserId
    sessions sessions' response :
  post_sessions_exclusions id_ userId excludedUserId sessions
    = (sessions', response) →
  (sessions' = sessions ∧ ∃ status error, response = Fail status error) ∨
  (∃ session user,
     sessions !! id_ = Some session ∧ Session.assignments session = None ∧
     Map_get (Session.users session) userId = Some user ∧
     userId ≠ excludedUserId ∧
     response = ExclusionsChanged (toggle (excludedUserIds user) excludedUserId) ∧
     sessions' =
       <[id_ := Session.with_users session
                  (Map_forEach
                     (mutate (Session.users session) userId
                        (with_excludedUserIds
                           (toggle (excludedUserIds user) excludedUserId)))
                     (with_ready false))]> sessions).
Proof.
  unfold post_sessions_exclusions.
  destruct (sessions !! id_) as [session |]; [| intros [= <- <-]; left; eauto].
  destruct (Session.assignments session) as [result |] eqn:Hres.
  { rewrite bool_decide_eq_true_2 by by eexists. intros [= <- <-]. left. eauto. }
  rewrite bool_decide_eq_false_2 by by intros [? ?].
  destruct (Map_get _ userId) as [user |] eqn:Huser;
    [| intros [= <- <-]; left; eauto].
  destruct (String.eqb_spec userId excludedUserId) as [-> | Hne];
    [intros [= <- <-]; left; eauto |].
  intros [= <- <-]. right. by exists session, user.
Qed.

Section ReadyRoute.

Context {E : Engine}.

Lemma post_sessions_ready_inv fuel id_ header sessions g sessions' reply g' :
  post_sessions_ready fuel id_ header sessions g = Some (sessions', reply, g') →
  (sessions' = sessions ∧ g' = g ∧
   ∃ status error, reply = Respond (Fail status error)) ∨
  (∃ session userId user,
     header = Single userId ∧ userId ≠ "" ∧
     sessions !! id_ = Some session ∧
     Map_get (Session.users session) userId = Some user ∧
     let users := mutate (Session.users session) userId (with_ready true) in
     let marked := Session.with_users session users in
     ((forallb ready (Map_values users) = false ∨
       is_Some (Session.assignments session)) ∧
      sessions' = <[id_ := marked]> sessions ∧ g' = g ∧
      reply = Respond StatusReady) ∨
     (forallb ready (Map_values users) = true ∧
      Session.assignments session = None ∧
      ∃ e, generateAssignments fuel (Map_values users) g = Some (Throw e, g') ∧
           sessions' = <[id_ := marked]> sessions ∧ reply = Uncaught e) ∨
     (forallb ready (Map_values users) = true ∧
      Session.assignments session = None ∧
      ∃ result,
        generateAssignments fuel (Map_values users) g
          = Some (Return result, g') ∧
        sessions' = <[id_ := Session.with_assignments marked result]> sessions ∧
        reply = Respond StatusReady)).
Proof.
  unfold post_sessions_ready.
  destruct (sessions !! id_) as [session |];
    [| intros [= <- <- <-]; left; eauto].
  destruct header as [| userId | values];
    [intros [= <- <- <-]; left; eauto | | intros [= <- <- <-]; left; eauto].
  destruct (String.eqb_spec userId "") as [-> | Hne];
    [intros [= <- <- <-]; left; eauto |].
  destruct (Map_get _ userId) as [user |] eqn:Huser;
    [| intros [= <- <- <-]; left; eauto].
  intros Hrun. right. exists session, userId, user.
  do 4 (split; [done |]). simpl in *.
  destruct (forallb ready _) eqn:Hall; simpl in Hrun.
  - destruct (Session.assignments session) as [result |] eqn:Hres.
    + rewrite bool_decide_eq_true_2 in Hrun by by eexists. simpl in Hrun.
      injection Hrun as <- <- <-. left. split; [by right; eexists | done].
    + rewrite bool_decide_eq_false_2 in Hrun by by intros [? ?]. simpl in Hrun.
      destruct (generateAssignments _ _ _) as [[[e | result] g1] |]; [| | done].
      * injection Hrun as <- <- <-. right. left. eauto 10.
      * injection Hrun as <- <- <-. right. right. eauto 10.
  - injection Hrun as <- <- <-. left. split; [by left | done].
Qed.

End ReadyRoute.

(** ** Results that stay sound *)

Lemma result_ok_weaken users users' result :
  result_ok users result →
  (∀ k u, Map_get users k = Some u →
     ∃ u', Map_get users' k = Some u' ∧
           ∀ x, x ∈ excludedUserIds u' → x ∈ excludedUserIds u) →
  result_ok users' result.
Proof.
  intros Hok Hkeep giver recipient Hlook.
  destruct (Hok giver recipient Hlook)
    as (Hne & Hself & [v Hv] & user & Huser & Hexcl).
  split; [done |]. split; [done |]. split.
  - destruct (Hkeep _ _ Hv) as (v' & -> & _). by eexists.
  - destruct (Hkeep _ _ Huser) as (user' & Huser' & Hsub).
    exists user'. split; [done |]. intros Hin. by apply Hexcl, Hsub.
Qed.

Lemma result_ok_mutate_ready users key b result :
  result_ok users result →
  result_ok (mutate users key (with_ready b)) result.
Proof.
  intros Hok. apply (result_ok_weaken users); [done |].
  intros k u Hget. rewrite Map_get_mutate, Hget. simpl.
  case_decide; eexists; (split; [done |]); done.
Qed.

Lemma result_ok_set users uuid n result :
  users_ok users → result_ok users result →
  result_ok (Map_set users uuid (joined uuid n)) result.
Proof.
  intros Husers Hok. apply (result_ok_weaken users); [done |].
  intros k u Hget. rewrite Map_get_set. case_decide as Heq.
  - subst k. eexists. split; [done |]. simpl.
    intros x ->%list_elem_of_singleton.
    destruct (users_ok_lookup _ _ _ Husers Hget) as (Hid & Hself & _).
    by rewrite Hid in Hself.
  - by exists u.
Qed.

Section Draw.

Context {E : Engine}.

(** The draw of the ready route, on users in order: the result is sound
    and gives every user a recipient. *)
Lemma draw_result_ok `{!Permuting E} fuel users g result g' :
  users_ok users →
  generateAssignments fuel (Map_values users) g = Some (Return result, g') →
  result_ok users result ∧
  (∀ key, key ∈ fst <$> users → is_Some (result !! key)) ∧
  2 ≤ length users.
Proof.
  intros Husers Hgen.
  pose proof (users_ok_ids users Husers) as Hids.
  destruct Husers as (Hkeys & Hall & _).
  apply generateAssignments_Return in Hgen
    as (Hlen & n & _ & Hpass & _ & -> & _).
  unfold passes in Hpass.
  pose proof (attempt_ids_Permutation (map id (Map_values users)) n g) as Hperm.
  set (sh := attempt_ids _ _ _) in *. clearbody sh.
  pose proof (proj1 (validate_true _ _ _) Hpass) as Hok. simpl in Hok.
  rewrite Hids in Hperm.
  assert (Hentry : ∀ j user, Map_values users !! j = Some user →
            Map_get users (id user) = Some user).
  { intros j user Hj. unfold Map_values in Hj.
    apply list_lookup_fmap_Some in Hj as ([k u] & -> & Hj). simpl.
    apply list_elem_of_lookup_2 in Hj.
    pose proof (proj1 (Forall_forall _ _) Hall _ Hj) as [Hid _]. simpl in Hid.
    rewrite Hid. by apply Map_get_NoDup. }
  split; [| split].
  - intros giver recipient Hlook.
    apply fill_lookup_inv in Hlook as [Hempty | (j & user & Hj & <- & ->)].
    { by rewrite lookup_empty in Hempty. }
    destruct (Hok j user Hj) as (a & Ha & Hne & Hself & Hexcl). simpl in *.
    rewrite (list_lookup_total_correct _ _ _ Ha).
    split; [done |]. split; [done |]. split.
    + apply Map_get_is_Some. rewrite <- Hperm. by eapply list_elem_of_lookup_2.
    + exists user. split; [by eapply Hentry | done].
  - intros key Hkey. rewrite <- Hids in Hkey.
    apply list_elem_of_fmap in Hkey as (user & -> & Hin).
    apply list_elem_of_lookup in Hin as [j Hj].
    rewrite (fill_lookup_NoDup _ _ 0 _ j); [by eexists | | done].
    by rewrite Hids.
  - unfold Map_values in Hlen. by rewrite length_fmap in Hlen.
Qed.

End Draw.

(** ** The store stays in order *)

Lemma store_users_ok_insert sessions key session :
  store_users_ok sessions →
  Session.id session = key → users_ok (Session.users session) →
  store_users_ok (<[key := session]> sessions).
Proof.
  intros Hok Hid Husers k s Hlook.
  destruct (decide (key = k)) as [<- | Hne].
  - rewrite lookup_insert_eq in Hlook. by injection Hlook as <-.
  - rewrite lookup_insert_ne in Hlook by done. by apply Hok.
Qed.

Lemma store_results_ok_insert sessions key session :
  store_results_ok sessions →
  (∀ result, Session.assignments session = Some result →
             result_ok (Session.users session) result) →
  store_results_ok (<[key := session]> sessions).
Proof.
  intros Hok Hres k s result Hlook.
  destruct (decide (key = k)) as [<- | Hne].
  - rewrite lookup_insert_eq in Hlook. injection Hlook as <-. apply Hres.
  - rewrite lookup_insert_ne in Hlook by done. intros Hres'. by eapply Hok.
Qed.

Lemma user_ok_joined uuid n : n ≠ "" → user_ok uuid (joined uuid n).
Proof.
  intros Hn. split; [done |]. split; [by left |].
  split; [apply NoDup_singleton | done].
Qed.

Lemma user_ok_with_ready key b user :
  user_ok key user → user_ok key (with_ready b user).
Proof. done. Qed.

Section Invariants.

Context {E : Engine}.

Lemma handle_users_ok fuel request uuids sessions g sessions' reply g' :
  store_users_ok sessions →
  handle fuel request uuids sessions g = Some (sessions', reply, g') →
  store_users_ok sessions'.
Proof.
  intros Hok Hhandle. destruct request; simpl in Hhandle.
  - destruct (post_sessions _ _ _ _) as [s r] eqn:Hroute.
    injection Hhandle as <- _ _.
    apply post_sessions_inv in Hroute
      as [(-> & _) | (n & _ & Hn & _ & ->)]; [done |].
    apply store_users_ok_insert; [done .. |]. simpl.
    split; [apply NoDup_singleton |]. split; [| apply NoDup_singleton].
    constructor; [| done]. by apply user_ok_joined.
  - destruct (post_sessions_join _ _ _ _) as [s r] eqn:Hroute.
    injection Hhandle as <- _ _.
    apply post_sessions_join_inv in Hroute
      as [(-> & _) | (session & n & Hlook & _ & Hn & Hfresh & _ & ->)]; [done |].
    destruct (Hok _ _ Hlook) as [Hid Husers].
    apply store_users_ok_insert; [done .. |]. simpl.
    apply users_ok_set; [done | by apply user_ok_joined | done].
  - by injection Hhandle as <- _ _.
  - destruct (post_sessions_exclusions _ _ _ _) as [s r] eqn:Hroute.
    injection Hhandle as <- _ _.
    apply post_sessions_exclusions_inv in Hroute
      as [(-> & _) | (session & user & Hlook & _ & Huser & Hne & _ & ->)];
      [done |].
    destruct (Hok _ _ Hlook) as [Hid Husers].
    apply store_users_ok_insert; [done .. |]. simpl.
    apply users_ok_forEach; [| by intros k u; apply user_ok_with_ready | done].
    apply users_ok_mutate_at; [done | | done].
    intros u Hu. rewrite Huser in Hu. injection Hu as <-.
    destruct (users_ok_lookup _ _ _ Husers Huser) as (Hkey & Hself & Hnd & Hname).
    split; [done |]. split; [| split; [by apply toggle_NoDup | done]].
    simpl. apply toggle_keeps; [congruence | done].
  - apply post_sessions_ready_inv in Hhandle
      as [(-> & _) | (session & userId & user & _ & _ & Hlook & Huser & Hcases)];
      [done |].
    destruct (Hok _ _ Hlook) as [Hid Husers].
    assert (users_ok (mutate (Session.users session) userId (with_ready true))).
    { apply users_ok_mutate; [done | | done].
      intros k u. apply user_ok_with_ready. }
    destruct Hcases as [(_ & -> & _) | [(_ & _ & e & _ & -> & _)
                                      | (_ & _ & result & _ & -> & _)]];
      by apply store_users_ok_insert.
  - by injection Hhandle as <- _ _.
  - by injection Hhandle as <- _ _.
Qed.

Lemma handle_results_ok `{!Permuting E}
    fuel request uuids sessions g sessions' reply g' :
  store_users_ok sessions → store_results_ok sessions →
  handle fuel request uuids sessions g = Some (sessions', reply, g') →
  store_results_ok sessions'.
Proof.
  intros Husers Hok Hhandle. destruct request; simpl in Hhandle.
  - destruct (post_sessions _ _ _ _) as [s r] eqn:Hroute.
    injection Hhandle as <- _ _.
    apply post_sessions_inv in Hroute
      as [(-> & _) | (n & _ & Hn & _ & ->)]; [done |].
    by apply store_results_ok_insert.
  - destruct (post_sessions_join _ _ _ _) as [s r] eqn:Hroute.
    injection Hhandle as <- _ _.
    apply post_sessions_join_inv in Hroute
      as [(-> & _) | (session & n & Hlook & _ & Hn & Hfresh & _ & ->)]; [done |].
    destruct (Husers _ _ Hlook) as [Hid Hus].
    apply store_results_ok_insert; [done |]. simpl. intros result Hres.
    apply result_ok_set; [done |]. by eapply Hok.
  - by injection Hhandle as <- _ _.
  - destruct (post_sessions_exclusions _ _ _ _) as [s r] eqn:Hroute.
    injection Hhandle as <- _ _.
    apply post_sessions_exclusions_inv in Hroute
      as [(-> & _) | (session & user & Hlook & Hnone & _ & _ & _ & ->)];
      [done |].
    apply store_results_ok_insert; [done |]. simpl. by rewrite Hnone.
  - apply post_sessions_ready_inv in Hhandle
      as [(-> & _) | (session & userId & user & _ & _ & Hlook & Huser & Hcases)];
      [done |].
    destruct (Husers _ _ Hlook) as [Hid Hus].
    destruct Hcases as [(_ & -> & _) | [(_ & Hnone & e & _ & -> & _)
                                      | (_ & _ & result & Hgen & -> & _)]];
      apply store_results_ok_insert; try done; simpl.
    + intros result Hres. apply result_ok_mutate_ready. by eapply Hok.
    + by rewrite Hnone.
    + intros ? [= <-]. eapply draw_result_ok; [| done].
      apply users_ok_mutate; [done | | done].
      intros k u. apply user_ok_with_ready.
  - by injection Hhandle as <- _ _.
  - by injection Hhandle as <- _ _.
Qed.

Lemma reachable_users_ok sessions : reachable sessions → store_users_ok sessions.
Proof.
  induction 1 as [| s fuel request uuids g s' reply g' _ IH Hhandle].
  - intros key session Hlook. by rewrite lookup_empty in Hlook.
  - by eapply handle_users_ok.
Qed.

Lemma reachable_results_ok `{!Permuting E} sessions :
  reachable sessions → store_results_ok sessions.
Proof.
  induction 1 as [| s fuel request uuids g s' reply g' Hreach IH Hhandle].
  - intros key session result Hlook. by rewrite lookup_empty in Hlook.
  - eapply handle_results_ok; [| done | done]. by apply reachable_users_ok.
Qed.

End Invariants.

(** * The routes: what a client can rely on *)

(** ** The validation loop and the retry loop *)

(** X1.  The validation loop accepts a pairing exactly when every user
    finds, at its own index in the shuffled array, an identifier that is
    there, is not the empty string, is not its own and is not in its
    exclusion list. *)
Theorem validation_accepts_iff (users : list User) (shuffledIds : list string) :
  fst (validate users shuffledIds 0) = true ↔
  ∀ i user, users !! i = Some user →
    ∃ assignedId, shuffledIds !! i = Some assignedId ∧ assignedId ≠ "" ∧
                  assignedId ≠ id user ∧ assignedId ∉ excludedUserIds user.
Proof.
  revert shuffledIds.
  assert (Hfrom : ∀ shuffledIds i0,
    fst (validate users shuffledIds i0) = true ↔
    ∀ i user, users !! i = Some user →
      ∃ a, shuffledIds !! (i0 + i) = Some a ∧ a ≠ "" ∧
           a ≠ id user ∧ a ∉ excludedUserIds user).
  { intros sh. induction users as [| user users IH]; intros i0; simpl.
    - split; [intros _ i u Hi; by rewrite lookup_nil in Hi | done].
    - destruct (_ || _ || _) eqn:Hrej.
      + simpl. split; [done |]. intros H.
        specialize (H 0 user eq_refl). rewrite Nat.add_0_r in H.
        apply rejected_iff in H. congruence.
      + apply rejected_iff in Hrej. rewrite IH. split.
        * intros H [| i] u Hi; simpl in Hi.
          -- injection Hi as <-. by rewrite Nat.add_0_r.
          -- rewrite Nat.add_succ_r. by apply H.
        * intros H i u Hi. specialize (H (S i) u Hi).
          by rewrite Nat.add_succ_r in H. }
  intros sh. apply (Hfrom sh 0).
Qed.

Section FirstPass.

Context {E : Engine}.

(** X2.  With at least two users, when attempt [n + 1] is the first to
    pass validation and is one of the first 999, the call returns the map
    that pairs each user with the identifier at its index in that
    attempt's shuffle, and has shuffled [n + 1] times. *)
Theorem first_passing_attempt_is_returned fuel users g n :
  1000 < fuel → 2 ≤ length users → n < 999 →
  (∀ m, m < n → passes users m g = false) → passes users n g = true →
  generateAssignments fuel users g
  = Some (Return (fill users (attempt_ids (map id users) n g) 0 ∅),
          source_after (map id users) (S n) g).
Proof.
  intros Hfuel Hlen Hn Hfail Hpass. unfold generateAssignments.
  apply Nat.ltb_ge in Hlen. rewrite Hlen.
  rewrite (retry_run fuel users [] g n) by (done || lia || by left).
  destruct (1000 <=? S n) eqn:Ha; [apply Nat.leb_le in Ha; lia | done].
Qed.

End FirstPass.

(** ** What holds in every store *)

Section Reachable.

Context {E : Engine}.

(** X3.  In every store the server can reach, a user is stored under its
    own identifier and its exclusion list holds that identifier: no
    request removes the self-exclusion. *)
Theorem reachable_self_excluded sessions key session userId user :
  reachable sessions →
  sessions !! key = Some session →
  Map_get (Session.users session) userId = Some user →
  id user = userId ∧ userId ∈ excludedUserIds user.
Proof.
  intros Hreach Hlook Huser.
  destruct (reachable_users_ok _ Hreach _ _ Hlook) as [_ Husers].
  destruct (users_ok_lookup _ _ _ Husers Huser) as (Hid & Hself & _).
  split; [done | by rewrite <- Hid].
Qed.

(** X4.  In every store the server can reach, the users of a session
    have names that are not empty and are all different. *)
Theorem reachable_names_unique sessions key session :
  reachable sessions →
  sessions !! key = Some session →
  NoDup (name <$> Map_values (Session.users session)) ∧
  ∀ user, user ∈ Map_values (Session.users session) → name user ≠ "".
Proof.
  intros Hreach Hlook.
  destruct (reachable_users_ok _ Hreach _ _ Hlook)
    as [_ (_ & Hall & Hnames)].
  split; [done |]. intros user Hin.
  apply list_elem_of_fmap in Hin as ([k u] & -> & Hin).
  by destruct (proj1 (Forall_forall _ _) Hall _ Hin) as (_ & _ & _ & ?).
Qed.

(** X5.  In every store the server can reach, a session is stored under
    its own identifier, no two of its users share an identifier, and no
    exclusion list holds an identifier twice. *)
Theorem reachable_no_duplicates sessions key session :
  reachable sessions →
  sessions !! key = Some session →
  Session.id session = key ∧
  NoDup (id <$> Map_values (Session.users session)) ∧
  ∀ user, user ∈ Map_values (Session.users session) →
          NoDup (excludedUserIds user).
Proof.
  intros Hreach Hlook.
  destruct (reachable_users_ok _ Hreach _ _ Hlook) as [Hid Husers].
  split; [done |]. split.
  - pose proof (users_ok_ids _ Husers) as Hids.
    destruct Husers as (Hkeys & _). by rewrite <- Hids in Hkeys.
  - intros user Hin. destruct Husers as (_ & Hall & _).
    apply list_elem_of_fmap in Hin as ([k u] & -> & Hin).
    by destruct (proj1 (Forall_forall _ _) Hall _ Hin) as (_ & _ & ? & _).
Qed.

(** X6.  A request answered with an error status leaves the store and the
    random source as they were. *)
Theorem rejected_request_changes_nothing
    fuel request uuids sessions g sessions' status error g' :
  handle fuel request uuids sessions g
    = Some (sessions', Respond (Fail status error), g') →
  sessions' = sessions ∧ g' = g.
Proof.
  intros Hhandle. destruct request; simpl in Hhandle.
  - destruct (post_sessions _ _ _ _) as [s r] eqn:Hroute.
    injection Hhandle as <- -> <-.
    by apply post_sessions_inv in Hroute
      as [(-> & _) | (n & _ & _ & [=] & _)].
  - destruct (post_sessions_join _ _ _ _) as [s r] eqn:Hroute.
    injection Hhandle as <- -> <-.
    by apply post_sessions_join_inv in Hroute
      as [(-> & _) | (? & ? & _ & _ & _ & _ & [=] & _)].
  - by injection Hhandle as <- _ <-.
  - destruct (post_sessions_exclusions _ _ _ _) as [s r] eqn:Hroute.
    injection Hhandle as <- -> <-.
    by apply post_sessions_exclusions_inv in Hroute
      as [(-> & _) | (? & ? & _ & _ & _ & _ & [=] & _)].
  - apply post_sessions_ready_inv in Hhandle
      as [(-> & -> & _) | (? & ? & ? & _ & _ & _ & _ & Hcases)]; [done |].
    by destruct Hcases as [(_ & _ & _ & [=]) | [(_ & _ & ? & _ & _ & [=])
                                             | (_ & _ & ? & _ & _ & [=])]].
  - by injection Hhandle as <- _ <-.
  - by injection Hhandle as <- _ <-.
Qed.

(** X7.  Once a session has a result, no request changes it, except a
    [POST /sessions] that draws the identifier of that session again and
    replaces it. *)
Theorem result_is_permanent
    fuel request uuids sessions g sessions' reply g' key session result :
  handle fuel request uuids sessions g = Some (sessions', reply, g') →
  sessions !! key = Some session →
  Session.assignments session = Some result →
  (∀ name, request = CreateSession name →
           falsy name = true ∨ String.substring 0 6 (fst uuids) ≠ key) →
  ∃ session', sessions' !! key = Some session' ∧
              Session.assignments session' = Some result.
Proof.
  intros Hhandle Hlook Hres Hcreate.
  assert (Hsame : sessions' = sessions →
            ∃ session', sessions' !! key = Some session' ∧
                        Session.assignments session' = Some result).
  { intros ->. by exists session. }
  destruct request; simpl in Hhandle.
  - destruct (post_sessions _ _ _ _) as [s r] eqn:Hroute.
    injection Hhandle as <- _ _.
    apply post_sessions_inv in Hroute
      as [(-> & _) | (n & -> & Hn & _ & ->)]; [by apply Hsame |].
    destruct (Hcreate _ eq_refl) as [Hfalsy | Hne].
    + simpl in Hfalsy. by apply String.eqb_eq in Hfalsy.
    + exists session. by rewrite lookup_insert_ne.
  - destruct (post_sessions_join _ _ _ _) as [s r] eqn:Hroute.
    injection Hhandle as <- _ _.
    apply post_sessions_join_inv in Hroute
      as [(-> & _) | (session0 & n & Hlook0 & _ & _ & _ & _ & ->)];
      [by apply Hsame |].
    destruct (decide (id_ = key)) as [-> | Hne].
    + rewrite lookup_insert_eq. eexists. split; [done |]. simpl. congruence.
    + exists session. by rewrite lookup_insert_ne.
  - injection Hhandle as <- _ _. by apply Hsame.
  - destruct (post_sessions_exclusions _ _ _ _) as [s r] eqn:Hroute.
    injection Hhandle as <- _ _.
    apply post_sessions_exclusions_inv in Hroute
      as [(-> & _) | (session0 & user & Hlook0 & Hnone & _ & _ & _ & ->)];
      [by apply Hsame |].
    destruct (decide (id_ = key)) as [-> | Hne]; [congruence |].
    exists session. by rewrite lookup_insert_ne.
  - apply post_sessions_ready_inv in Hhandle
      as [(-> & _) | (session0 & userId & user & _ & _ & Hlook0 & _ & Hcases)];
      [by apply Hsame |].
    destruct (decide (id_ = key)) as [-> | Hne].
    + assert (session0 = session) as -> by congruence.
      destruct Hcases as [(_ & -> & _) | [(_ & Hnone & _)
                                        | (_ & Hnone & _)]]; [| congruence ..].
      rewrite lookup_insert_eq. by eexists.
    + exists session.
      destruct Hcases as [(_ & -> & _) | [(_ & _ & ? & _ & -> & _)
                                        | (_ & _ & ? & _ & -> & _)]];
        by rewrite lookup_insert_ne.
  - injection Hhandle as <- _ _. by apply Hsame.
  - injection Hhandle as <- _ _. by apply Hsame.
Qed.

End Reachable.

(** ** Creating and joining *)

(** X8.  [POST /sessions] with a name never looks whether the identifier
    it drew is in use: whatever was stored under it, the session is
    afterwards the new one, with its creator alone, not ready, excluding
    only itself, and without a result; the other sessions are untouched. *)
Theorem create_replaces_session n uuid1 uuid2 sessions :
  n ≠ "" →
  let sessionId := String.substring 0 6 uuid1 in
  let sessions' := fst (post_sessions (Some n) uuid1 uuid2 sessions) in
  snd (post_sessions (Some n) uuid1 uuid2 sessions)
    = SessionCreated sessionId uuid2 ∧
  get_sessions sessionId sessions'
    = SessionInfo sessionId
        [{| id := uuid2; name := n; excludedUserIds := [uuid2];
            ready := false |}] false ∧
  (∀ userId, get_sessions_result sessionId userId sessions'
             = Fail 400 "No result yet") ∧
  ∀ key, key ≠ sessionId → sessions' !! key = sessions !! key.
Proof.
  intros Hn sessionId sessions'.
  destruct (post_sessions (Some n) uuid1 uuid2 sessions) as [s r] eqn:Hroute.
  apply post_sessions_inv in Hroute as [(_ & _ & Hfalsy) | (n' & [= <-] & _ & -> & ->)].
  { simpl in Hfalsy. by apply String.eqb_eq in Hfalsy. }
  subst sessions'. simpl. split; [done |]. split; [| split].
  - unfold get_sessions. by rewrite lookup_insert_eq.
  - intros userId. unfold get_sessions_result. by rewrite lookup_insert_eq.
  - intros key Hne. by rewrite lookup_insert_ne.
Qed.

(** X9.  A newcomer whose identifier is new to the session comes last in
    the list of users, not ready and excluding only itself; the users
    already there, their order and the result are as before. *)
Theorem join_appends_user id_ n uuid sessions session :
  sessions !! id_ = Some session →
  n ≠ "" →
  n ∉ name <$> Map_values (Session.users session) →
  uuid ∉ fst <$> Session.users session →
  let sessions' := fst (post_sessions_join id_ (Some n) uuid sessions) in
  snd (post_sessions_join id_ (Some n) uuid sessions) = UserJoined uuid ∧
  get_sessions id_ sessions'
    = SessionInfo (Session.id session)
        (Map_values (Session.users session)
           ++ [{| id := uuid; name := n; excludedUserIds := [uuid];
                  ready := false |}])
        (bool_decide (is_Some (Session.assignments session))).
Proof.
  intros Hlook Hn Hfresh Hnew sessions'.
  destruct (post_sessions_join id_ (Some n) uuid sessions) as [s r] eqn:Hroute.
  unfold post_sessions_join in Hroute. rewrite Hlook in Hroute. simpl in Hroute.
  apply String.eqb_neq in Hn. rewrite Hn in Hroute.
  apply name_used_false in Hfresh. rewrite Hfresh in Hroute.
  injection Hroute as <- <-. subst sessions'. simpl. split; [done |].
  unfold get_sessions. rewrite lookup_insert_eq. simpl. f_equal.
  clear Hlook Hfresh. unfold Map_values.
  induction (Session.users session) as [| [k u] users IH]; simpl in *; [done |].
  apply not_elem_of_cons in Hnew as [Hne Hnew].
  destruct (String.eqb_spec k uuid) as [-> | _]; [done |]. simpl.
  f_equal. by apply IH.
Qed.

(** ** Exclusions *)

Lemma indexOf_app_new l x : x ∉ l → indexOf (l ++ [x]) x = Some (length l).
Proof.
  induction l as [| y l IH]; simpl; intros Hnot.
  - by rewrite String.eqb_refl.
  - apply not_elem_of_cons in Hnot as [Hne Hnot].
    destruct (String.eqb_spec y x) as [-> | _]; [done |].
    by rewrite IH.
Qed.

Lemma toggle_twice l x : x ∉ l → toggle (toggle l x) x = l.
Proof.
  intros Hnot. unfold toggle at 2.
  rewrite (proj2 (indexOf_None l x) Hnot).
  unfold toggle. rewrite indexOf_app_new by done.
  rewrite delete_take_drop, take_app_length.
  rewrite drop_ge by (rewrite length_app; simpl; lia).
  apply app_nil_r.
Qed.

Lemma toggle_elem_of l x y :
  NoDup l → y ∈ toggle l x ↔ (y = x ∧ x ∉ l) ∨ (y ≠ x ∧ y ∈ l).
Proof.
  intros Hnd. unfold toggle. destruct (indexOf l x) as [i |] eqn:Hi.
  - apply indexOf_Some in Hi. split.
    + intros Hin. right. split; [| by eapply list_elem_of_delete_inv].
      intros ->. by eapply not_elem_of_delete_NoDup.
    + intros [[_ Hnot] | [Hne Hin]].
      * destruct Hnot. by eapply list_elem_of_lookup_2.
      * by eapply elem_of_delete_other.
  - apply indexOf_None in Hi. rewrite elem_of_app, list_elem_of_singleton.
    split.
    + intros [Hin | ->]; [| by left]. right. split; [by intros -> | done].
    + intros [[-> _] | [_ Hin]]; [by right | by left].
Qed.

(** The user stored under [userId] after a toggle that went through. *)
Lemma exclusions_user_after (users : list (string * User)) userId user l :
  Map_get users userId = Some user →
  Map_get
    (Map_forEach (mutate users userId (with_excludedUserIds l))
       (with_ready false)) userId
  = Some (with_ready false (with_excludedUserIds l user)).
Proof.
  intros Huser. rewrite Map_get_forEach, Map_get_mutate, Huser. simpl.
  by rewrite decide_True.
Qed.

(** X10.  Excluding someone and taking the exclusion back: when [userId]
    did not exclude [excludedUserId], two toggles in a row answer first
    with the list extended by it, then with the list as it was, and the
    list stored is the one from before. *)
Theorem toggle_twice_restores id_ userId excludedUserId sessions session user :
  sessions !! id_ = Some session →
  Session.assignments session = None →
  Map_get (Session.users session) userId = Some user →
  userId ≠ excludedUserId →
  excludedUserId ∉ excludedUserIds user →
  let once := post_sessions_exclusions id_ userId excludedUserId sessions in
  let twice := post_sessions_exclusions id_ userId excludedUserId (fst once) in
  snd once = ExclusionsChanged (excludedUserIds user ++ [excludedUserId]) ∧
  snd twice = ExclusionsChanged (excludedUserIds user) ∧
  ∃ session',
    fst twice !! id_ = Some session' ∧
    excludedUserIds <$> Map_get (Session.users session') userId
    = Some (excludedUserIds user).
Proof.
  intros Hlook Hnone Huser Hne Hnot once twice.
  assert (Hstep : ∀ s sess u,
    s !! id_ = Some sess → Session.assignments sess = None →
    Map_get (Session.users sess) userId = Some u →
    post_sessions_exclusions id_ userId excludedUserId s
    = (<[id_ := Session.with_users sess
                  (Map_forEach
                     (mutate (Session.users sess) userId
                        (with_excludedUserIds
                           (toggle (excludedUserIds u) excludedUserId)))
                     (with_ready false))]> s,
       ExclusionsChanged (toggle (excludedUserIds u) excludedUserId))).
  { intros s sess u Hs Hn Hu. unfold post_sessions_exclusions.
    rewrite Hs, Hn, Hu. rewrite bool_decide_eq_false_2 by by intros [? ?].
    apply String.eqb_neq in Hne. by rewrite Hne. }
  subst twice once. rewrite (Hstep _ _ _ Hlook Hnone Huser). simpl.
  erewrite Hstep;
    [| apply lookup_insert_eq | done | by apply exclusions_user_after].
  simpl. rewrite toggle_twice by done.
  split; [| split; [done |]].
  - unfold toggle. by rewrite (proj2 (indexOf_None _ _) Hnot).
  - eexists. split; [apply lookup_insert_eq |]. simpl.
    erewrite exclusions_user_after; [done |].
    by apply exclusions_user_after.
Qed.

Section Exclusions.

Context {E : Engine}.

(** X11.  In a store the server can reach, a toggle that goes through
    flips the membership of [excludedUserId] in the user's list and of
    nothing else; the user's own identifier stays in it. *)
Theorem toggle_flips_membership
    id_ userId excludedUserId sessions sessions' l' :
  reachable sessions →
  post_sessions_exclusions id_ userId excludedUserId sessions
    = (sessions', ExclusionsChanged l') →
  ∃ session user session',
    sessions !! id_ = Some session ∧
    Map_get (Session.users session) userId = Some user ∧
    sessions' !! id_ = Some session' ∧
    excludedUserIds <$> Map_get (Session.users session') userId = Some l' ∧
    (excludedUserId ∈ l' ↔ excludedUserId ∉ excludedUserIds user) ∧
    (∀ y, y ≠ excludedUserId → (y ∈ l' ↔ y ∈ excludedUserIds user)) ∧
    userId ∈ l'.
Proof.
  intros Hreach Hroute.
  apply post_sessions_exclusions_inv in Hroute
    as [(_ & ? & ? & [=])
       | (session & user & Hlook & _ & Huser & Hne & [= ->] & ->)].
  destruct (reachable_users_ok _ Hreach _ _ Hlook) as [_ Husers].
  destruct (users_ok_lookup _ _ _ Husers Huser) as (Hid & Hself & Hnd & _).
  exists session, user. eexists. split; [done |]. split; [done |].
  split; [apply lookup_insert_eq |]. simpl.
  rewrite (exclusions_user_after _ _ user) by done. simpl. split; [done |].
  split; [| split].
  - rewrite toggle_elem_of by done. split.
    + by intros [[_ ?] | [? _]].
    + intros Hnot. by left.
  - intros y Hy. rewrite toggle_elem_of by done. split.
    + by intros [[? _] | [_ ?]].
    + intros Hin. by right.
  - apply toggle_keeps; [done |]. by rewrite <- Hid.
Qed.

End Exclusions.

(** X12.  After a change of exclusions everybody has to confirm again:
    no user of the session is ready, and the session has no result. *)
Theorem toggle_resets_ready id_ userId excludedUserId sessions sessions' l' :
  post_sessions_exclusions id_ userId excludedUserId sessions
    = (sessions', ExclusionsChanged l') →
  ∃ session',
    sessions' !! id_ = Some session' ∧
    Session.assignments session' = None ∧
    ∀ user, user ∈ Map_values (Session.users session') → ready user = false.
Proof.
  intros Hroute.
  apply post_sessions_exclusions_inv in Hroute
    as [(_ & ? & ? & [=])
       | (session & user & Hlook & Hnone & Huser & Hne & _ & ->)].
  eexists. split; [apply lookup_insert_eq |]. simpl. split; [done |].
  intros u Hin. rewrite Map_forEach_values in Hin.
  by apply list_elem_of_fmap in Hin as (u0 & -> & _).
Qed.

(** ** The draw and its result *)

Lemma Map_get_lookup {V} (m : list (string * V)) k v :
  Map_get m k = Some v → ∃ i, m !! i = Some (k, v).
Proof. intros H. by apply list_elem_of_lookup, Map_get_elem_of. Qed.

(** Two users of a session with the same name are the same entry. *)
Lemma users_ok_name_inj users k1 u1 k2 u2 :
  users_ok users →
  Map_get users k1 = Some u1 → Map_get users k2 = Some u2 →
  name u1 = name u2 → k1 = k2.
Proof.
  intros (_ & _ & Hnames) [i1 H1]%Map_get_lookup [i2 H2]%Map_get_lookup Heq.
  assert (Hn1 : (name <$> Map_values users) !! i1 = Some (name u1)).
  { unfold Map_values. by rewrite !list_lookup_fmap, H1. }
  assert (Hn2 : (name <$> Map_values users) !! i2 = Some (name u1)).
  { unfold Map_values. rewrite !list_lookup_fmap, H2. simpl. by rewrite Heq. }
  assert (i1 = i2) as -> by by eapply NoDup_lookup.
  congruence.
Qed.

Lemma get_sessions_result_found id_ userId sessions session result recipient :
  sessions !! id_ = Some session →
  Session.assignments session = Some result →
  result !! userId = Some recipient → recipient ≠ "" →
  get_sessions_result id_ (Some userId) sessions
  = AssignedName (name <$> Map_get (Session.users session) recipient).
Proof.
  intros Hlook Hres Hentry Hne. unfold get_sessions_result.
  rewrite Hlook. simpl. rewrite Hres. simpl. rewrite Hentry. simpl.
  apply String.eqb_neq in Hne. by rewrite Hne.
Qed.

(** What a sound result gives to a user of the session. *)
Lemma result_ok_answer id_ sessions session result userId user recipient :
  users_ok (Session.users session) →
  result_ok (Session.users session) result →
  sessions !! id_ = Some session →
  Session.assignments session = Some result →
  Map_get (Session.users session) userId = Some user →
  result !! userId = Some recipient →
  ∃ other,
    Map_get (Session.users session) recipient = Some other ∧
    get_sessions_result id_ (Some userId) sessions
      = AssignedName (Some (name other)) ∧
    recipient ≠ userId ∧ (recipient ∉ excludedUserIds user) ∧
    name other ≠ name user.
Proof.
  intros Husers Hok Hlook Hres Huser Hentry.
  destruct (Hok _ _ Hentry)
    as (Hne & Hself & [other Hother] & user' & Huser' & Hexcl).
  assert (user' = user) as -> by congruence.
  exists other. split; [done |]. split; [| split; [done |]; split; [done |]].
  - erewrite get_sessions_result_found by done. by rewrite Hother.
  - intros Heq. apply Hself. by eapply users_ok_name_inj.
Qed.

Lemma all_ready (l : list User) :
  forallb ready l = true → ∀ user, user ∈ l → ready user = true.
Proof.
  intros Hall user Hin. apply list_elem_of_In in Hin.
  by apply (proj1 (forallb_forall _ _) Hall).
Qed.

Section Ready.

Context {E : Engine}.

(** X13.  When a ready request makes the result of a session appear, in a
    store the server can reach: the request is answered "ready", the
    session has at least two users and all are ready, and every user of
    the session then gets from the result route the name of another user
    of the session, one whose identifier is not in its exclusion list. *)
Theorem draw_gives_everyone_a_name `{!Permuting E}
    fuel id_ header sessions g sessions' reply g' session session' result :
  reachable sessions →
  post_sessions_ready fuel id_ header sessions g = Some (sessions', reply, g') →
  sessions !! id_ = Some session →
  Session.assignments session = None →
  sessions' !! id_ = Some session' →
  Session.assignments session' = Some result →
  reply = Respond StatusReady ∧
  2 ≤ length (Session.users session') ∧
  (∀ user, user ∈ Map_values (Session.users session') → ready user = true) ∧
  ∀ userId user,
    Map_get (Session.users session') userId = Some user →
    ∃ recipient other,
      result !! userId = Some recipient ∧
      Map_get (Session.users session') recipient = Some other ∧
      get_sessions_result id_ (Some userId) sessions'
        = AssignedName (Some (name other)) ∧
      recipient ≠ userId ∧ (recipient ∉ excludedUserIds user) ∧
      name other ≠ name user.
Proof.
  intros Hreach Hready Hlook Hnone Hlook' Hres.
  apply post_sessions_ready_inv in Hready
    as [(-> & _) | (session0 & userId0 & user0 & _ & _ & Hlook0 & _ & Hcases)];
    [congruence |].
  assert (session0 = session) as -> by congruence.
  destruct (reachable_users_ok _ Hreach _ _ Hlook) as [_ Husers].
  assert (Husers' :
    users_ok (mutate (Session.users session) userId0 (with_ready true))).
  { apply users_ok_mutate; [done | | done].
    intros k u. apply user_ok_with_ready. }
  destruct Hcases as [(_ & -> & _) | [(_ & _ & e & _ & -> & _)
                                    | (Hall & _ & result0 & Hgen & -> & ->)]].
  - rewrite lookup_insert_eq in Hlook'. injection Hlook' as <-.
    simpl in Hres. congruence.
  - rewrite lookup_insert_eq in Hlook'. injection Hlook' as <-.
    simpl in Hres. congruence.
  - rewrite lookup_insert_eq in Hlook'. injection Hlook' as <-.
    simpl in Hres. injection Hres as ->. simpl.
    destruct (draw_result_ok _ _ _ _ _ Husers' Hgen) as (Hok & Htotal & Hlen).
    split; [done |]. split; [done |]. split.
    { by apply all_ready. }
    intros userId user Huser.
    destruct (Htotal userId) as [recipient Hentry].
    { apply Map_get_is_Some. by eexists. }
    exists recipient.
    destruct (result_ok_answer id_
                (<[id_ := Session.with_assignments
                            (Session.with_users session
                               (mutate (Session.users session) userId0
                                  (with_ready true))) result]> sessions)
                (Session.with_assignments
                   (Session.with_users session
                      (mutate (Session.users session) userId0
                         (with_ready true))) result)
                result userId user recipient)
      as (other & ? & ? & ? & ? & ?);
      [exact Husers' | exact Hok | apply lookup_insert_eq | done
      | exact Huser | exact Hentry |].
    by exists other.
Qed.

(** X14.  A result only ever appears through the ready route, when the
    session has at least two users and all of them are ready. *)
Theorem result_appears_only_when_all_ready
    fuel request uuids sessions g sessions' reply g' key session' result :
  handle fuel request uuids sessions g = Some (sessions', reply, g') →
  sessions' !! key = Some session' →
  Session.assignments session' = Some result →
  (∀ session, sessions !! key = Some session →
              Session.assignments session = None) →
  (∃ header, request = SetReady key header) ∧
  reply = Respond StatusReady ∧
  2 ≤ length (Session.users session') ∧
  ∀ user, user ∈ Map_values (Session.users session') → ready user = true.
Proof.
  intros Hhandle Hlook' Hres Hbefore.
  assert (Hsame : sessions' = sessions → False).
  { intros ->. specialize (Hbefore _ Hlook'). congruence. }
  assert (Hother : ∀ k s, k ≠ key → sessions' = <[k := s]> sessions → False).
  { intros k s Hne ->. rewrite lookup_insert_ne in Hlook' by done.
    specialize (Hbefore _ Hlook'). congruence. }
  destruct request; simpl in Hhandle.
  - destruct (post_sessions _ _ _ _) as [s r] eqn:Hroute.
    injection Hhandle as <- _ _.
    apply post_sessions_inv in Hroute
      as [(-> & _) | (n & _ & _ & _ & ->)]; [by destruct Hsame |].
    destruct (decide (String.substring 0 6 uuids.1 = key)) as [Heq | Hne].
    + rewrite Heq, lookup_insert_eq in Hlook'. by injection Hlook' as <-.
    + by edestruct Hother.
  - destruct (post_sessions_join _ _ _ _) as [s r] eqn:Hroute.
    injection Hhandle as <- _ _.
    apply post_sessions_join_inv in Hroute
      as [(-> & _) | (session0 & n & Hlook0 & _ & _ & _ & _ & ->)];
      [by destruct Hsame |].
    destruct (decide (id_ = key)) as [-> | Hne]; [| by edestruct Hother].
    rewrite lookup_insert_eq in Hlook'. injection Hlook' as <-.
    simpl in Hres. specialize (Hbefore _ Hlook0). congruence.
  - injection Hhandle as <- _ _. by destruct Hsame.
  - destruct (post_sessions_exclusions _ _ _ _) as [s r] eqn:Hroute.
    injection Hhandle as <- _ _.
    apply post_sessions_exclusions_inv in Hroute
      as [(-> & _) | (session0 & user & Hlook0 & Hnone & _ & _ & _ & ->)];
      [by destruct Hsame |].
    destruct (decide (id_ = key)) as [-> | Hne]; [| by edestruct Hother].
    rewrite lookup_insert_eq in Hlook'. injection Hlook' as <-.
    simpl in Hres. congruence.
  - apply post_sessions_ready_inv in Hhandle
      as [(-> & _) | (session0 & userId & user & _ & _ & Hlook0 & _ & Hcases)];
      [by destruct Hsame |].
    destruct (decide (id_ = key)) as [-> | Hne].
    + specialize (Hbefore _ Hlook0).
      destruct Hcases as [(_ & -> & _) | [(_ & _ & e & _ & -> & _)
                                        | (Hall & _ & result0 & Hgen & -> & ->)]];
        rewrite lookup_insert_eq in Hlook'; injection Hlook' as <-;
        simpl in Hres; [congruence | congruence |].
      split; [by eexists |]. split; [done |]. simpl.
      apply generateAssignments_Return in Hgen as (Hlen & _).
      unfold Map_values in Hlen. rewrite length_fmap in Hlen.
      split; [done |]. by apply all_ready.
    + destruct Hcases as [(_ & -> & _) | [(_ & _ & e & _ & -> & _)
                                        | (_ & _ & result0 & _ & -> & _)]];
        by edestruct Hother.
  - injection Hhandle as <- _ _. by destruct Hsame.
  - injection Hhandle as <- _ _. by destruct Hsame.
Qed.

(** X15.  The one user of a session who says it is ready gets no answer:
    the draw throws "Not enough users", at once and without drawing
    anything, and the flag is stored all the same. *)
Theorem ready_alone_throws fuel id_ userId user sessions session g :
  sessions !! id_ = Some session →
  Session.users session = [(userId, user)] →
  Session.assignments session = None →
  userId ≠ "" →
  post_sessions_ready fuel id_ (Single userId) sessions g
  = Some (<[id_ := Session.with_users session
                     [(userId, with_ready true user)]]> sessions,
          Uncaught NotEnoughUsers, g).
Proof.
  intros Hlook Husers Hnone Hne. unfold post_sessions_ready.
  rewrite Hlook, Husers. apply String.eqb_neq in Hne. rewrite Hne. simpl.
  rewrite String.eqb_refl. simpl. rewrite Hnone. simpl. done.
Qed.

End Ready.

Lemma mutate_ready_again (users : list (string * User)) userId :
  forallb ready (Map_values users) = true →
  mutate users userId (with_ready true) = users.
Proof.
  unfold Map_values. induction users as [| [k u] users IH]; simpl; [done |].
  intros [Hu Hrest]%andb_prop.
  destruct (String.eqb k userId).
  - destruct u as [i n l r]. simpl in Hu. by subst r.
  - f_equal. by apply IH.
Qed.

Lemma with_users_same (session : Session.t) :
  Session.with_users session (Session.users session) = session.
Proof. by destruct session. Qed.

Section AfterTheDraw.

Context {E : Engine}.

(** X16.  When the draw throws, the session is left with everybody ready
    and no result, and the next ready request of any of its users makes
    the draw again, on the same users. *)
Theorem failed_draw_is_repeated
    fuel id_ header sessions g sessions' e g' :
  post_sessions_ready fuel id_ header sessions g
    = Some (sessions', Uncaught e, g') →
  ∃ session',
    sessions' !! id_ = Some session' ∧
    Session.assignments session' = None ∧
    (∀ user, user ∈ Map_values (Session.users session') → ready user = true) ∧
    ∀ fuel2 userId user g2,
      Map_get (Session.users session') userId = Some user → userId ≠ "" →
      post_sessions_ready fuel2 id_ (Single userId) sessions' g2
      = match generateAssignments fuel2
                (Map_values (Session.users session')) g2 with
        | None => None
        | Some (Throw e2, g3) => Some (sessions', Uncaught e2, g3)
        | Some (Return result, g3) =>
            Some (<[id_ := Session.with_assignments session' result]> sessions',
                  Respond StatusReady, g3)
        end.
Proof.
  intros Hready.
  apply post_sessions_ready_inv in Hready
    as [(_ & _ & ? & ? & [=])
       | (session & userId0 & user0 & _ & _ & Hlook & _ & Hcases)].
  destruct Hcases as [(_ & _ & _ & [=]) | [(Hall & Hnone & e0 & _ & -> & _)
                                         | (_ & _ & ? & _ & _ & [=])]].
  eexists. split; [apply lookup_insert_eq |]. simpl.
  split; [done |]. split; [by apply all_ready |].
  intros fuel2 userId user g2 Huser Hne.
  unfold post_sessions_ready. rewrite lookup_insert_eq.
  apply String.eqb_neq in Hne. rewrite Hne. simpl. rewrite Huser.
  rewrite mutate_ready_again by done. rewrite Hall, Hnone. simpl.
  destruct (generateAssignments _ _ _) as [[[e2 | result] g3] |]; [| | done];
    rewrite !insert_insert_eq; reflexivity.
Qed.

(** X17.  Joining is not closed by the draw.  In a store the server can
    reach, someone who joins a session that has its result, under an
    identifier new to the session, is answered "Result not found" by the
    result route, and the result route answers everybody else as before. *)
Theorem join_after_draw `{!Permuting E}
    id_ name_ uuid sessions sessions' session result :
  reachable sessions →
  sessions !! id_ = Some session →
  Session.assignments session = Some result →
  uuid ∉ fst <$> Session.users session →
  post_sessions_join id_ name_ uuid sessions = (sessions', UserJoined uuid) →
  get_sessions_result id_ (Some uuid) sessions' = Fail 404 "Result not found" ∧
  ∀ userId,
    get_sessions_result id_ userId sessions'
    = get_sessions_result id_ userId sessions.
Proof.
  intros Hreach Hlook Hres Hnew Hjoin.
  pose proof (reachable_results_ok _ Hreach _ _ _ Hlook Hres) as Hok.
  apply post_sessions_join_inv in Hjoin
    as [(_ & ? & ? & [=]) | (session0 & n & Hlook0 & _ & _ & _ & _ & ->)].
  assert (session0 = session) as -> by congruence.
  assert (Hfresh : result !! uuid = None).
  { destruct (result !! uuid) as [r |] eqn:Hentry; [| done].
    destruct (Hok _ _ Hentry) as (_ & _ & _ & user & Huser & _).
    destruct Hnew. apply Map_get_is_Some. by eexists. }
  split.
  - unfold get_sessions_result. rewrite lookup_insert_eq. simpl.
    rewrite Hres. simpl. by rewrite Hfresh.
  - intros userId. unfold get_sessions_result.
    rewrite lookup_insert_eq, Hlook. simpl. rewrite Hres. simpl.
    destruct userId as [userId |]; simpl; [| done].
    destruct (result !! userId) as [r |] eqn:Hentry; simpl; [| done].
    destruct (String.eqb r ""); [done |]. f_equal.
    rewrite Map_get_set. case_decide as Heq; [| done]. subst r.
    destruct (Hok _ _ Hentry) as (_ & _ & Hthere & _).
    destruct Hnew. by apply Map_get_is_Some.
Qed.

(** X18.  In every store the server can reach, whenever the result route
    answers with a name, the one who asked is a user of the session and
    the name is that of another user of the session, whose identifier is
    not in the exclusion list of the one who asked. *)
Theorem result_route_names_another_user `{!Permuting E}
    id_ userId sessions answer :
  reachable sessions →
  get_sessions_result id_ userId sessions = AssignedName answer →
  ∃ session giver user recipient other,
    sessions !! id_ = Some session ∧ userId = Some giver ∧
    Map_get (Session.users session) giver = Some user ∧
    Map_get (Session.users session) recipient = Some other ∧
    answer = Some (name other) ∧
    recipient ≠ giver ∧ (recipient ∉ excludedUserIds user) ∧
    name other ≠ name user.
Proof.
  intros Hreach Hanswer. unfold get_sessions_result in Hanswer.
  destruct (sessions !! id_) as [session |] eqn:Hlook; [| done].
  simpl in Hanswer.
  destruct (Session.assignments session) as [result |] eqn:Hres; [| done].
  simpl in Hanswer.
  destruct userId as [giver |]; [| done]. simpl in Hanswer.
  destruct (result !! giver) as [recipient |] eqn:Hentry; [| done].
  destruct (reachable_users_ok _ Hreach _ _ Hlook) as [_ Husers].
  pose proof (reachable_results_ok _ Hreach _ _ _ Hlook Hres) as Hok.
  destruct (Hok _ _ Hentry) as (Hne & _ & _ & user & Huser & _).
  destruct (result_ok_answer id_ sessions session result giver user recipient)
    as (other & Hother & Hget & Hself & Hexcl & Hname); try done.
  simpl in Hanswer. apply String.eqb_neq in Hne. rewrite Hne in Hanswer.
  simpl in Hanswer. rewrite Hother in Hanswer. injection Hanswer as <-.
  by exists session, giver, user, recipient, other.
Qed.

End AfterTheDraw.

(** * The routes: runs on the example session *)

Lemma lobby1_reachable : reachable (E := V8) lobby1.
Proof.
  apply (reachable_handle ∅ 0 (CreateSession (Some "Alice"))
           ("abcdef01-2345", "a1") lucky lobby1
           (Respond (SessionCreated "abcdef" "a1")) lucky);
    [apply reachable_start | vm_compute; reflexivity].
Qed.

Lemma lobby2_reachable : reachable (E := V8) lobby2.
Proof.
  apply (reachable_handle lobby1 0 (JoinSession "abcdef" (Some "Bob"))
           ("b2", "") lucky lobby2 (Respond (UserJoined "b2")) lucky);
    [apply lobby1_reachable | vm_compute; reflexivity].
Qed.

Lemma lobby3_reachable : reachable (E := V8) lobby3.
Proof.
  apply (reachable_handle lobby2 0 (JoinSession "abcdef" (Some "Carol"))
           ("c3", "") lucky lobby3 (Respond (UserJoined "c3")) lucky);
    [apply lobby2_reachable | vm_compute; reflexivity].
Qed.

Lemma lobby4_reachable : reachable (E := V8) lobby4.
Proof.
  apply (reachable_handle lobby3 0 (ToggleExclusion "abcdef" "a1" "b2")
           ("", "") lucky lobby4
           (Respond (ExclusionsChanged ["a1"; "b2"])) lucky);
    [apply lobby3_reachable | vm_compute; reflexivity].
Qed.

Lemma lobby5_reachable : reachable (E := V8) lobby5.
Proof.
  apply (reachable_handle lobby4 1001 (SetReady "abcdef" (Single "a1"))
           ("", "") lucky lobby5 (Respond StatusReady) lucky);
    [apply lobby4_reachable | vm_compute; reflexivity].
Qed.

Lemma lobby6_reachable : reachable (E := V8) lobby6.
Proof.
  apply (reachable_handle lobby5 1001 (SetReady "abcdef" (Single "b2"))
           ("", "") lucky lobby6 (Respond StatusReady) lucky);
    [apply lobby5_reachable | vm_compute; reflexivity].
Qed.

Lemma lobby7_reachable : reachable (E := V8) lobby7.
Proof.
  eapply (reachable_handle lobby6 1001 (SetReady "abcdef" (Single "c3"))
            ("", "") lucky lobby7 (Respond StatusReady));
    [apply lobby6_reachable | vm_compute; reflexivity].
Qed.

Lemma first_passing_attempt_is_returned_run :
  let users := [alice; bob; carol] in
  let g := start (tape_of [low; low; low; high; low; high] low) in
  1000 < 1001 ∧ 2 ≤ length users ∧ 1 < 999 ∧
  (∀ m, m < 1 → passes (E := V8) users m g = false) ∧
  passes (E := V8) users 1 g = true ∧
  generateAssignments (E := V8) 1001 users g
  = Some (Return (fill users
                    (attempt_ids (E := V8) (map id users) 1 g)
                    0 ∅),
          source_after (E := V8) (map id users) 2 g).
Proof.
  intros users g.
  assert (Hfuel : 1000 < 1001) by lia.
  assert (Hlen : 2 ≤ length users) by (simpl; lia).
  assert (Hn : 1 < 999) by lia.
  assert (Hfail : ∀ m, m < 1 →
            passes (E := V8) users m g = false).
  { intros m Hm. assert (m = 0) as -> by lia. vm_compute. reflexivity. }
  assert (Hpass : passes (E := V8) users 1 g = true).
  { vm_compute. reflexivity. }
  repeat (split; [assumption |]).
  exact (first_passing_attempt_is_returned (E := V8)
           1001 users g 1 Hfuel Hlen Hn Hfail Hpass).
Defined.

Lemma reachable_self_excluded_run :
  ∃ session user,
    reachable (E := V8) lobby4 ∧
    lobby4 !! "abcdef" = Some session ∧
    Map_get (Session.users session) "a1" = Some user ∧
    id user = "a1" ∧ "a1" ∈ excludedUserIds user.
Proof.
  eexists _, _.
  match goal with
  | |- _ ∧ ?look ∧ ?get ∧ _ =>
      assert (Hlook : look) by (vm_compute; reflexivity);
      assert (Hget : get) by (vm_compute; reflexivity)
  end.
  split; [exact lobby4_reachable |]. split; [exact Hlook |].
  split; [exact Hget |].
  exact (reachable_self_excluded (E := V8) _ _ _ _ _
           lobby4_reachable Hlook Hget).
Defined.

Lemma reachable_names_unique_run :
  ∃ session,
    reachable (E := V8) lobby4 ∧
    lobby4 !! "abcdef" = Some session ∧
    NoDup (name <$> Map_values (Session.users session)) ∧
    ∀ user, user ∈ Map_values (Session.users session) → name user ≠ "".
Proof.
  eexists.
  match goal with
  | |- _ ∧ ?look ∧ _ => assert (Hlook : look) by (vm_compute; reflexivity)
  end.
  split; [exact lobby4_reachable |]. split; [exact Hlook |].
  exact (reachable_names_unique (E := V8) _ _ _
           lobby4_reachable Hlook).
Defined.

Lemma reachable_no_duplicates_run :
  ∃ session,
    reachable (E := V8) lobby4 ∧
    lobby4 !! "abcdef" = Some session ∧
    Session.id session = "abcdef" ∧
    NoDup (id <$> Map_values (Session.users session)) ∧
    ∀ user, user ∈ Map_values (Session.users session) →
            NoDup (excludedUserIds user).
Proof.
  eexists.
  match goal with
  | |- _ ∧ ?look ∧ _ => assert (Hlook : look) by (vm_compute; reflexivity)
  end.
  split; [exact lobby4_reachable |]. split; [exact Hlook |].
  exact (reachable_no_duplicates (E := V8) _ _ _
           lobby4_reachable Hlook).
Defined.

Lemma rejected_request_changes_nothing_run :
  handle (E := V8) 0 (ToggleExclusion "abcdef" "a1" "a1")
    ("", "") lobby4 lucky
  = Some (lobby4, Respond (Fail 400 "Cannot exclude yourself"), lucky) ∧
  lobby4 = lobby4 ∧ lucky = lucky.
Proof.
  assert (Hhandle :
    handle (E := V8) 0 (ToggleExclusion "abcdef" "a1" "a1")
      ("", "") lobby4 lucky
    = Some (lobby4, Respond (Fail 400 "Cannot exclude yourself"), lucky))
    by (vm_compute; reflexivity).
  split; [exact Hhandle |].
  exact (rejected_request_changes_nothing (E := V8)
           _ _ _ _ _ _ _ _ _ Hhandle).
Defined.

Lemma result_is_permanent_run :
  let request := JoinSession "abcdef" (Some "Dave") in
  handle (E := V8) 1001 request ("d4", "") lobby7 lucky
    = Some (lobby8, Respond (UserJoined "d4"), lucky) ∧
  lobby7 !! "abcdef" = Some (room lobby7) ∧
  Session.assignments (room lobby7) = Some drawn ∧
  (∀ name, request = CreateSession name →
           falsy name = true ∨ String.substring 0 6 "d4" ≠ "abcdef") ∧
  ∃ session', lobby8 !! "abcdef" = Some session' ∧
              Session.assignments session' = Some drawn.
Proof.
  intros request.
  match goal with
  | |- ?run ∧ ?look ∧ ?res ∧ _ =>
      assert (Hrun : run) by (vm_compute; reflexivity);
      assert (Hlook : look) by (vm_compute; reflexivity);
      assert (Hres : res) by (vm_compute; reflexivity)
  end.
  assert (Hcreate : ∀ name, request = CreateSession name →
            falsy name = true ∨ String.substring 0 6 "d4" ≠ "abcdef")
    by (intros name [=]).
  split; [exact Hrun |]. split; [exact Hlook |]. split; [exact Hres |].
  split; [exact Hcreate |].
  exact (result_is_permanent (E := V8)
           _ _ _ _ _ _ _ _ _ _ _ Hrun Hlook Hres Hcreate).
Defined.

Lemma create_replaces_session_run :
  "Zoe" ≠ "" ∧
  let sessions' := fst (post_sessions (Some "Zoe") "abcdef99-0000" "z9" lobby7) in
  snd (post_sessions (Some "Zoe") "abcdef99-0000" "z9" lobby7)
    = SessionCreated "abcdef" "z9" ∧
  get_sessions "abcdef" sessions'
    = SessionInfo "abcdef"
        [{| id := "z9"; name := "Zoe"; excludedUserIds := ["z9"];
            ready := false |}] false ∧
  (∀ userId, get_sessions_result "abcdef" userId sessions'
             = Fail 400 "No result yet") ∧
  ∀ key, key ≠ "abcdef" → sessions' !! key = lobby7 !! key.
Proof.
  assert (Hn : "Zoe" ≠ "") by discriminate.
  split; [exact Hn |].
  exact (create_replaces_session "Zoe" "abcdef99-0000" "z9" lobby7 Hn).
Defined.

Lemma join_appends_user_run :
  ∃ session,
    lobby1 !! "abcdef" = Some session ∧
    "Bob" ≠ "" ∧
    ("Bob" ∉ name <$> Map_values (Session.users session)) ∧
    ("b2" ∉ fst <$> Session.users session) ∧
    let sessions' := fst (post_sessions_join "abcdef" (Some "Bob") "b2" lobby1) in
    snd (post_sessions_join "abcdef" (Some "Bob") "b2" lobby1) = UserJoined "b2" ∧
    get_sessions "abcdef" sessions'
      = SessionInfo (Session.id session)
          (Map_values (Session.users session)
             ++ [{| id := "b2"; name := "Bob"; excludedUserIds := ["b2"];
                    ready := false |}])
          (bool_decide (is_Some (Session.assignments session))).
Proof.
  eexists.
  match goal with
  | |- ?look ∧ _ ∧ ?fresh ∧ ?new ∧ _ =>
      assert (Hlook : look) by (vm_compute; reflexivity);
      assert (Hfresh : fresh)
        by (apply (bool_decide_unpack _); vm_compute; exact I);
      assert (Hnew : new)
        by (apply (bool_decide_unpack _); vm_compute; exact I)
  end.
  assert (Hn : "Bob" ≠ "") by discriminate.
  split; [exact Hlook |]. split; [exact Hn |]. split; [exact Hfresh |].
  split; [exact Hnew |].
  exact (join_appends_user "abcdef" "Bob" "b2" lobby1 _ Hlook Hn Hfresh Hnew).
Defined.

Lemma toggle_twice_restores_run :
  ∃ session user,
    lobby3 !! "abcdef" = Some session ∧
    Session.assignments session = None ∧
    Map_get (Session.users session) "a1" = Some user ∧
    "a1" ≠ "b2" ∧
    ("b2" ∉ excludedUserIds user) ∧
    let once := post_sessions_exclusions "abcdef" "a1" "b2" lobby3 in
    let twice := post_sessions_exclusions "abcdef" "a1" "b2" (fst once) in
    snd once = ExclusionsChanged (excludedUserIds user ++ ["b2"]) ∧
    snd twice = ExclusionsChanged (excludedUserIds user) ∧
    ∃ session',
      fst twice !! "abcdef" = Some session' ∧
      excludedUserIds <$> Map_get (Session.users session') "a1"
      = Some (excludedUserIds user).
Proof.
  eexists _, _.
  match goal with
  | |- ?look ∧ ?none ∧ ?get ∧ _ ∧ ?notin ∧ _ =>
      assert (Hlook : look) by (vm_compute; reflexivity);
      assert (Hnone : none) by (vm_compute; reflexivity);
      assert (Hget : get) by (vm_compute; reflexivity);
      assert (Hnot : notin)
        by (apply (bool_decide_unpack _); vm_compute; exact I)
  end.
  assert (Hne : "a1" ≠ "b2") by discriminate.
  split; [exact Hlook |]. split; [exact Hnone |]. split; [exact Hget |].
  split; [exact Hne |]. split; [exact Hnot |].
  exact (toggle_twice_restores "abcdef" "a1" "b2" lobby3 _ _
           Hlook Hnone Hget Hne Hnot).
Defined.

Lemma toggle_flips_membership_run :
  reachable (E := V8) lobby3 ∧
  post_sessions_exclusions "abcdef" "a1" "b2" lobby3
    = (lobby4, ExclusionsChanged ["a1"; "b2"]) ∧
  ∃ session user session',
    lobby3 !! "abcdef" = Some session ∧
    Map_get (Session.users session) "a1" = Some user ∧
    lobby4 !! "abcdef" = Some session' ∧
    excludedUserIds <$> Map_get (Session.users session') "a1"
      = Some ["a1"; "b2"] ∧
    ("b2" ∈ ["a1"; "b2"] ↔ "b2" ∉ excludedUserIds user) ∧
    (∀ y, y ≠ "b2" → (y ∈ ["a1"; "b2"] ↔ y ∈ excludedUserIds user)) ∧
    "a1" ∈ ["a1"; "b2"].
Proof.
  match goal with
  | |- _ ∧ ?run ∧ _ => assert (Hrun : run) by (vm_compute; reflexivity)
  end.
  split; [exact lobby3_reachable |]. split; [exact Hrun |].
  exact (toggle_flips_membership (E := V8) _ _ _ _ _ _
           lobby3_reachable Hrun).
Defined.

Lemma toggle_resets_ready_run :
  let sessions' := fst (post_sessions_exclusions "abcdef" "b2" "c3" lobby5) in
  post_sessions_exclusions "abcdef" "b2" "c3" lobby5
    = (sessions', ExclusionsChanged ["b2"; "c3"]) ∧
  ∃ session',
    sessions' !! "abcdef" = Some session' ∧
    Session.assignments session' = None ∧
    ∀ user, user ∈ Map_values (Session.users session') → ready user = false.
Proof.
  intros sessions'.
  match goal with
  | |- ?run ∧ _ => assert (Hrun : run) by (vm_compute; reflexivity)
  end.
  split; [exact Hrun |].
  exact (toggle_resets_ready _ _ _ _ _ _ Hrun).
Defined.

Lemma draw_gives_everyone_a_name_run :
  Permuting V8 ∧
  reachable (E := V8) lobby6 ∧
  post_sessions_ready (E := V8) 1001 "abcdef" (Single "c3")
    lobby6 lucky = Some (lobby7, Respond StatusReady, advance 4 lucky) ∧
  lobby6 !! "abcdef" = Some (room lobby6) ∧
  Session.assignments (room lobby6) = None ∧
  lobby7 !! "abcdef" = Some (room lobby7) ∧
  Session.assignments (room lobby7) = Some drawn ∧
  Respond StatusReady = Respond StatusReady ∧
  2 ≤ length (Session.users (room lobby7)) ∧
  (∀ user, user ∈ Map_values (Session.users (room lobby7)) →
           ready user = true) ∧
  ∀ userId user,
    Map_get (Session.users (room lobby7)) userId = Some user →
    ∃ recipient other,
      drawn !! userId = Some recipient ∧
      Map_get (Session.users (room lobby7)) recipient = Some other ∧
      get_sessions_result "abcdef" (Some userId) lobby7
        = AssignedName (Some (name other)) ∧
      recipient ≠ userId ∧ (recipient ∉ excludedUserIds user) ∧
      name other ≠ name user.
Proof.
  match goal with
  | |- _ ∧ _ ∧ ?run ∧ ?look ∧ ?none ∧ ?look' ∧ ?res ∧ _ =>
      assert (Hrun : run) by (vm_compute; reflexivity);
      assert (Hlook : look) by (vm_compute; reflexivity);
      assert (Hnone : none) by (vm_compute; reflexivity);
      assert (Hlook' : look') by (vm_compute; reflexivity);
      assert (Hres : res) by (vm_compute; reflexivity)
  end.
  split; [exact V8_Permuting |].
  split; [exact lobby6_reachable |]. split; [exact Hrun |].
  split; [exact Hlook |]. split; [exact Hnone |]. split; [exact Hlook' |].
  split; [exact Hres |].
  exact (draw_gives_everyone_a_name (E := V8)
           _ _ _ _ _ _ _ _ _ _ _ lobby6_reachable Hrun Hlook Hnone Hlook' Hres).
Defined.

Lemma result_appears_only_when_all_ready_run :
  let request := SetReady "abcdef" (Single "c3") in
  ∃ reply,
    handle (E := V8) 1001 request ("", "") lobby6 lucky
      = Some (lobby7, reply, advance 4 lucky) ∧
    lobby7 !! "abcdef" = Some (room lobby7) ∧
    Session.assignments (room lobby7) = Some drawn ∧
    (∀ session, lobby6 !! "abcdef" = Some session →
                Session.assignments session = None) ∧
    (∃ header, request = SetReady "abcdef" header) ∧
    reply = Respond StatusReady ∧
    2 ≤ length (Session.users (room lobby7)) ∧
    ∀ user, user ∈ Map_values (Session.users (room lobby7)) →
            ready user = true.
Proof.
  intros request. eexists.
  match goal with
  | |- ?run ∧ ?look ∧ ?res ∧ _ =>
      assert (Hrun : run) by (vm_compute; reflexivity);
      assert (Hlook : look) by (vm_compute; reflexivity);
      assert (Hres : res) by (vm_compute; reflexivity)
  end.
  assert (Hbefore : ∀ session, lobby6 !! "abcdef" = Some session →
                               Session.assignments session = None).
  { intros session Hsession.
    assert (Hroom : lobby6 !! "abcdef" = Some (room lobby6))
      by (vm_compute; reflexivity).
    rewrite Hroom in Hsession. injection Hsession as <-.
    vm_compute. reflexivity. }
  split; [exact Hrun |]. split; [exact Hlook |]. split; [exact Hres |].
  split; [exact Hbefore |].
  exact (result_appears_only_when_all_ready (E := V8)
           _ _ _ _ _ _ _ _ _ _ _ Hrun Hlook Hres Hbefore).
Defined.

Lemma ready_alone_throws_run :
  ∃ session user,
    lobby1 !! "abcdef" = Some session ∧
    Session.users session = [("a1", user)] ∧
    Session.assignments session = None ∧
    "a1" ≠ "" ∧
    post_sessions_ready (E := V8) 1001 "abcdef" (Single "a1")
      lobby1 lucky
    = Some (<["abcdef" := Session.with_users session
                            [("a1", with_ready true user)]]> lobby1,
            Uncaught NotEnoughUsers, lucky).
Proof.
  eexists _, _.
  match goal with
  | |- ?look ∧ ?users ∧ ?none ∧ _ =>
      assert (Hlook : look) by (vm_compute; reflexivity);
      assert (Husers : users) by (vm_compute; reflexivity);
      assert (Hnone : none) by (vm_compute; reflexivity)
  end.
  assert (Hne : "a1" ≠ "") by discriminate.
  split; [exact Hlook |]. split; [exact Husers |]. split; [exact Hnone |].
  split; [exact Hne |].
  exact (ready_alone_throws (E := V8) 1001 "abcdef" "a1" _
           lobby1 _ lucky Hlook Husers Hnone Hne).
Defined.

Lemma failed_draw_is_repeated_run :
  let sessions' := after_ready "c3" lobby6 unlucky in
  post_sessions_ready (E := V8) 1001 "abcdef" (Single "c3")
    lobby6 unlucky
    = Some (sessions', Uncaught ImpossibleToGenerate, advance 2000 unlucky) ∧
  ∃ session',
    sessions' !! "abcdef" = Some session' ∧
    Session.assignments session' = None ∧
    (∀ user, user ∈ Map_values (Session.users session') →
             ready user = true) ∧
    ∀ fuel2 userId user g2,
      Map_get (Session.users session') userId = Some user → userId ≠ "" →
      post_sessions_ready (E := V8) fuel2 "abcdef"
        (Single userId) sessions' g2
      = match generateAssignments (E := V8) fuel2
                (Map_values (Session.users session')) g2 with
        | None => None
        | Some (Throw e2, g3) => Some (sessions', Uncaught e2, g3)
        | Some (Return result, g3) =>
            Some (<["abcdef" := Session.with_assignments session' result]>
                    sessions',
                  Respond StatusReady, g3)
        end.
Proof.
  intros sessions'.
  match goal with
  | |- ?run ∧ _ => assert (Hrun : run) by (vm_compute; reflexivity)
  end.
  split; [exact Hrun |].
  exact (failed_draw_is_repeated (E := V8) _ _ _ _ _ _ _ _ Hrun).
Defined.

Lemma join_after_draw_run :
  Permuting V8 ∧
  reachable (E := V8) lobby7 ∧
  lobby7 !! "abcdef" = Some (room lobby7) ∧
  Session.assignments (room lobby7) = Some drawn ∧
  ("d4" ∉ fst <$> Session.users (room lobby7)) ∧
  post_sessions_join "abcdef" (Some "Dave") "d4" lobby7
    = (lobby8, UserJoined "d4") ∧
  get_sessions_result "abcdef" (Some "d4") lobby8
    = Fail 404 "Result not found" ∧
  ∀ userId,
    get_sessions_result "abcdef" userId lobby8
    = get_sessions_result "abcdef" userId lobby7.
Proof.
  match goal with
  | |- _ ∧ _ ∧ ?look ∧ ?res ∧ ?new ∧ ?join ∧ _ =>
      assert (Hlook : look) by (vm_compute; reflexivity);
      assert (Hres : res) by (vm_compute; reflexivity);
      assert (Hnew : new)
        by (apply (bool_decide_unpack _); vm_compute; exact I);
      assert (Hjoin : join) by (vm_compute; reflexivity)
  end.
  split; [exact V8_Permuting |].
  split; [exact lobby7_reachable |]. split; [exact Hlook |].
  split; [exact Hres |]. split; [exact Hnew |]. split; [exact Hjoin |].
  exact (join_after_draw (E := V8) _ _ _ _ _ _ _
           lobby7_reachable Hlook Hres Hnew Hjoin).
Defined.

Lemma result_route_names_another_user_run :
  ∃ answer,
    Permuting V8 ∧
    reachable (E := V8) lobby7 ∧
    get_sessions_result "abcdef" (Some "a1") lobby7 = AssignedName answer ∧
    ∃ session giver user recipient other,
      lobby7 !! "abcdef" = Some session ∧ Some "a1" = Some giver ∧
      Map_get (Session.users session) giver = Some user ∧
      Map_get (Session.users session) recipient = Some other ∧
      answer = Some (name other) ∧
      recipient ≠ giver ∧ (recipient ∉ excludedUserIds user) ∧
      name other ≠ name user.
Proof.
  eexists.
  match goal with
  | |- _ ∧ _ ∧ ?run ∧ _ => assert (Hrun : run) by (vm_compute; reflexivity)
  end.
  split; [exact V8_Permuting |].
  split; [exact lobby7_reachable |]. split; [exact Hrun |].
  exact (result_route_names_another_user (E := V8) _ _ _ _
           lobby7_reachable Hrun).
Defined.
